(** * A verification model of the file-backed CRUD adapter

    The development embeds [src/yaml/yaml.ts] (the adapter built by
    [yamlCRUD]), the query types of [src/core.ts] and the write gate
    [Mutex] of [src/yaml/queue.ts].

    Modelled domain.  JavaScript values are the inductive [value]; numbers
    are the integers, strings are byte strings (ASCII text), and a string
    converts to a number only when it is a plain decimal integer literal
    (any other string counts as NaN).  A record is an object: a finite map
    from property names to values, where a property may be present with the
    value [VUndefined].  Property lookup ignores the prototype chain.  The
    file system is a finite map from path strings to nodes; paths are
    compared as written (no normalisation of [..] or doubled slashes).  The
    YAML codec and the id generator are external packages and are taken as
    parameters.  An error that the engine throws is [TypeError], without
    its message.  [console.error] is not modelled. *)

From Stdlib Require Import ZArith Ascii String List Bool Lia Sorted.
From stdpp Require Import gmap strings list pretty functions.

Set Warnings "-register-all".

Open Scope string_scope.
Open Scope Z_scope.

(** ** JavaScript values *)

Inductive value : Type :=
  | VUndefined
  | VNull
  | VBool (b : bool)
  | VNum (n : Z)
  | VStr (s : string)
  | VArr (items : list value)
  | VObj (props : list (string * value)).

(** A record (the adapter's [Readable] / [Writable]) is a JavaScript
    object. *)
Abbreviation record := (gmap string value).

(** [record[key]]: a missing property reads as [undefined]. *)
Definition get (r : record) (key : string) : value :=
  default VUndefined (r !! key).

(** ** What is thrown *)

Inductive error : Type :=
  | NotFound (path : string)              (* Error(`Record not found: ...`) *)
  | IOFailure (code : string) (path : string)
  | ParseFailure (path : string)          (* YAML.parse threw *)
  | TypeError.                            (* thrown by the engine *)

Module JS.

(** [typeof v === 'object' && v !== null] *)
Definition is_object (v : value) : bool :=
  match v with
  | VArr _ | VObj _ => true
  | _ => false
  end.

(** [Array.isArray(v)] *)
Definition isArray (v : value) : bool :=
  match v with
  | VArr _ => true
  | _ => false
  end.

(** [Object.entries(v)] for an object or an array: an array's own keys
    are its indices written in decimal. *)
Definition entries (v : value) : list (string * value) :=
  match v with
  | VObj props => props
  | VArr items => imap (fun i x => (pretty i, x)) items
  | _ => []
  end.

(** [a === b].  Two objects are never the same reference here: one side
    always comes out of a freshly parsed file. *)
Definition strict_eq (a b : value) : bool :=
  match a, b with
  | VUndefined, VUndefined => true
  | VNull, VNull => true
  | VBool x, VBool y => Bool.eqb x y
  | VNum x, VNum y => Z.eqb x y
  | VStr x, VStr y => String.eqb x y
  | _, _ => false
  end.

(** [String(v)]: an array joins its elements with commas, [null] and
    [undefined] elements as empty strings. *)
Fixpoint ToString (v : value) : string :=
  match v with
  | VUndefined => "undefined"
  | VNull => "null"
  | VBool true => "true"
  | VBool false => "false"
  | VNum n => pretty n
  | VStr s => s
  | VArr items =>
      (fix join (l : list value) : string :=
         match l with
         | [] => ""
         | x :: t =>
             let sx := match x with
                       | VUndefined | VNull => ""
                       | _ => ToString x
                       end in
             match t with
             | [] => sx
             | _ :: _ => sx ++ "," ++ join t
             end
         end) items
  | VObj _ => "[object Object]"
  end.

(** ToPrimitive: objects and arrays become their string form. *)
Definition ToPrimitive (v : value) : value :=
  if is_object v then VStr (ToString v) else v.

Definition digit_of (c : ascii) : option Z :=
  let n := Z.of_nat (nat_of_ascii c) in
  if (48 <=? n) && (n <=? 57) then Some (n - 48) else None.

Fixpoint digits (acc : Z) (s : string) : option Z :=
  match s with
  | EmptyString => Some acc
  | String c t =>
      match digit_of c with
      | Some d => digits (10 * acc + d) t
      | None => None
      end
  end.

(** StringToNumber on decimal integer literals; [None] is NaN. *)
Definition StringToNumber (s : string) : option Z :=
  match s with
  | EmptyString => Some 0
  | String "-" (String _ _ as t) => Z.opp <$> digits 0 t
  | String "+" (String _ _ as t) => digits 0 t
  | _ => digits 0 s
  end.

(** [Number(v)]; [None] is NaN. *)
Definition ToNumber (v : value) : option Z :=
  match ToPrimitive v with
  | VUndefined => None
  | VNull => Some 0
  | VBool b => Some (if b then 1 else 0)
  | VNum n => Some n
  | VStr s => StringToNumber s
  | _ => None
  end.

(** [a == b] *)
Definition loose_eq (a b : value) : bool :=
  match a, b with
  | (VUndefined | VNull), (VUndefined | VNull) => true
  | (VUndefined | VNull), _ | _, (VUndefined | VNull) => false
  | (VArr _ | VObj _), (VArr _ | VObj _) => false
  | VStr x, VStr y => String.eqb x y
  | VStr x, (VArr _ | VObj _) => String.eqb x (ToString b)
  | (VArr _ | VObj _), VStr y => String.eqb (ToString a) y
  | _, _ =>
      match ToNumber a, ToNumber b with
      | Some x, Some y => Z.eqb x y
      | _, _ => false
      end
  end.

(** The relational operators: two strings compare as strings, anything
    else as numbers, and a comparison with NaN is false. *)
Definition compare_with (strs : string -> string -> bool)
    (nums : Z -> Z -> bool) (a b : value) : bool :=
  match ToPrimitive a, ToPrimitive b with
  | VStr x, VStr y => strs x y
  | pa, pb =>
      match ToNumber pa, ToNumber pb with
      | Some x, Some y => nums x y
      | _, _ => false
      end
  end.

Definition lt : value -> value -> bool := compare_with String.ltb Z.ltb.
Definition le : value -> value -> bool := compare_with String.leb Z.leb.
Definition gt (a b : value) : bool := lt b a.
Definition ge (a b : value) : bool := le b a.

(** [String.prototype.toLowerCase] on ASCII text *)
Definition lower_char (c : ascii) : ascii :=
  let n := nat_of_ascii c in
  if (65 <=? n)%nat && (n <=? 90)%nat then ascii_of_nat (n + 32) else c.

Fixpoint toLowerCase (s : string) : string :=
  match s with
  | EmptyString => EmptyString
  | String c t => String (lower_char c) (toLowerCase t)
  end.

(** [hay.includes(needle)] on strings *)
Fixpoint str_includes (hay needle : string) : bool :=
  String.prefix needle hay ||
  match hay with
  | EmptyString => false
  | String _ t => str_includes t needle
  end.

(** [arr.includes(x)] *)
Definition includes (arr : list value) (x : value) : bool :=
  existsb (fun y => strict_eq y x) arr.

(** [Array.prototype.slice(start, end)] *)
Definition clamp_index (len i : Z) : Z :=
  if i <? 0 then Z.max (len + i) 0 else Z.min i len.

Definition slice {A} (l : list A) (start stop : Z) : list A :=
  let len := Z.of_nat (length l) in
  let k := clamp_index len start in
  let final := clamp_index len stop in
  firstn (Z.to_nat (final - k)) (skipn (Z.to_nat k) l).

(** [Array.prototype.sort(cmp)]: a stable sort; [x] goes before the first
    element it does not compare greater than. *)
Section Sort.
Context {A : Type} (cmp : A -> A -> Z).

Fixpoint sort_insert (x : A) (l : list A) : list A :=
  match l with
  | [] => [x]
  | y :: t => if cmp x y <=? 0 then x :: y :: t else y :: sort_insert x t
  end.

Definition sort (l : list A) : list A := foldr sort_insert [] l.
End Sort.

(** [f(args)] where [f] is a value of the data model.  None of them is
    a function: the call throws a [TypeError] and returns nothing. *)
Definition call (f : value) (args : list value) : error + Empty_set :=
  inl TypeError.

(** [arr.map(fn)] for a callback that may throw: the first throw ends
    the loop. *)
Fixpoint map {A B} (fn : A -> error + B) (arr : list A)
    : error + list B :=
  match arr with
  | [] => inr []
  | x :: rest =>
      match fn x with
      | inl e => inl e
      | inr y =>
          match map fn rest with
          | inl e => inl e
          | inr ys => inr (y :: ys)
          end
      end
  end.

End JS.

(** ** Queries ([src/core.ts]) *)

(** [Query<T>]: the four shaping directives of [Filters<T>], typed as
    declared, and the remaining properties ([...filters]) in property
    order. *)
Record Query : Type := {
  q_limit : option Z;                  (* $limit?: number *)
  q_skip : option Z;                   (* $skip?: number *)
  q_sort : option (list (string * Z)); (* $sort?: { [K]: 1 | -1 } *)
  q_select : option (list string);     (* $select?: Array<keyof T> *)
  q_filters : list (string * value)    (* every other property *)
}.

(** The query [{}]. *)
Definition empty_query : Query :=
  {| q_limit := None; q_skip := None; q_sort := None; q_select := None;
     q_filters := [] |}.

(** A query that only filters. *)
Definition filter_query (filters : list (string * value)) : Query :=
  {| q_limit := None; q_skip := None; q_sort := None; q_select := None;
     q_filters := filters |}.

(** The query [q] with its [$select] left out. *)
Definition without_select (q : Query) : Query :=
  {| q_limit := q_limit q; q_skip := q_skip q; q_sort := q_sort q;
     q_select := None; q_filters := q_filters q |}.

(** ** The in-memory part of [list] (yaml.ts, lines 45-119) *)

Module Shape.

(** The [switch (op)] of the operator loop. *)
Definition operator (recordValue : value) (entry : string * value) : bool :=
  let '(op, opValue) := entry in
  if String.eqb op "$ne" then negb (JS.loose_eq recordValue opValue)
  else if String.eqb op "$in" then
    match opValue with
    | VArr items => JS.includes items recordValue
    | _ => false
    end
  else if String.eqb op "$nin" then
    match opValue with
    | VArr items => negb (JS.includes items recordValue)
    | _ => false
    end
  else if String.eqb op "$lt" then JS.lt recordValue opValue
  else if String.eqb op "$lte" then JS.le recordValue opValue
  else if String.eqb op "$gt" then JS.gt recordValue opValue
  else if String.eqb op "$gte" then JS.ge recordValue opValue
  else if String.eqb op "$search" then
    match recordValue with
    | VStr s =>
        JS.str_includes (JS.toLowerCase s)
          (JS.toLowerCase (JS.ToString opValue))
    | _ => false
    end
  else true.

(** The callback of [Object.entries(filters).every]. *)
Definition constraint (r : record) (entry : string * value) : bool :=
  let '(key, v) := entry in
  let recordValue := get r key in
  if JS.is_object v then forallb (operator recordValue) (JS.entries v)
  else JS.strict_eq recordValue v.

(** The callback of [records.filter]. *)
Definition matches (filters : list (string * value)) (r : record) : bool :=
  forallb (constraint r) filters.

Definition apply_filters (filters : list (string * value))
    (records : list record) : list record :=
  if (0 <? length filters)%nat then List.filter (matches filters) records
  else records.

(** The comparator handed to [records.sort]. *)
Definition comparator (key : string) (direction : Z) (a b : record) : Z :=
  if JS.lt (get a key) (get b key) then -1 * direction
  else if JS.gt (get a key) (get b key) then 1 * direction
  else 0.

Definition apply_sorting (sort : option (list (string * Z)))
    (records : list record) : list record :=
  match sort with
  | Some ((key, d) :: _) =>
      let direction := if d =? 1 then 1 else -1 in
      JS.sort (comparator key direction) records
  | _ => records
  end.

(** [x || d] on an optional number: zero is falsy. *)
Definition or_default (x : option Z) (d : Z) : Z :=
  match x with
  | Some n => if n =? 0 then d else n
  | None => d
  end.

Definition apply_pagination (q : Query) (records : list record)
    : list record :=
  let skip := or_default (q_skip q) 0 in
  let limit := or_default (q_limit q) (Z.of_nat (length records)) in
  JS.slice records skip (skip + limit).

(** The callback of [records.map] under [$select] (lines 108-117).
    The line that declares [selectedRecord] ends without a semicolon and
    the next line of code starts with a parenthesis, so the two are one
    statement,
    [const selectedRecord = { id: record.id }($select).forEach(...)]:
    the object literal is called with [$select] as its argument.  The
    call throws, and neither the [forEach] nor the [return] is
    reached. *)
Definition project (select : list string) (r : record) : error + record :=
  match JS.call (VObj [("id", get r "id")]) [VArr (VStr <$> select)] with
  | inl e => inl e
  | inr returned => match returned with end
  end.

(** [if ($select) { records = records.map(...) }]; an array is truthy,
    the empty one too. *)
Definition apply_projection (select : option (list string))
    (records : list record) : error + list record :=
  match select with
  | Some keys => JS.map (project keys) records
  | None => inr records
  end.

(** The whole [if (query) { ... }] block. *)
Definition apply_query (query : option Query) (records : list record)
    : error + list record :=
  match query with
  | None => inr records
  | Some q =>
      let records := apply_filters (q_filters q) records in
      let records := apply_sorting (q_sort q) records in
      let records := apply_pagination q records in
      apply_projection (q_select q) records
  end.

End Shape.

(** ** The file system ([fs], [fs/promises]) *)

Inductive node : Type :=
  | File (content : string)
  | Dir.

(** What the adapter's operations act on: the disk, and how many ids the
    generator has handed out. *)
Record world : Type := {
  disk : gmap string node;
  issued : nat
}.

Definition on_disk (f : gmap string node -> gmap string node) (w : world)
    : world :=
  {| disk := f (disk w); issued := issued w |}.

(** Computations that may throw and that change the world. *)
Definition M (A : Type) : Type := world -> (error + A) * world.

Definition throw {A} (e : error) : M A := fun w => (inl e, w).

#[global] Instance M_ret : MRet M := fun A x w => (inr x, w).
#[global] Instance M_bind : MBind M := fun A B k m w =>
  match m w with
  | (inr x, w') => k x w'
  | (inl e, w') => (inl e, w')
  end.

(** A step that touches nothing of the world and may throw. *)
Definition pure_step {A} (r : error + A) : M A := fun w => (r, w).

(** [try { m } catch (error) { h }] *)
Definition try_catch {A} (m : M A) (h : error -> M A) : M A :=
  fun w =>
    match m w with
    | (inr x, w') => (inr x, w')
    | (inl e, w') => h e w'
    end.

Module Path.

Definition slash : ascii := "/"%char.

(** The path up to its last slash, when it has one. *)
Fixpoint dirname (p : string) : option string :=
  match p with
  | EmptyString => None
  | String c t =>
      match dirname t with
      | Some d => Some (String c d)
      | None => if Ascii.eqb c slash then Some EmptyString else None
      end
  end.

Fixpoint prefixes_at_slash (pre rest : string) : list string :=
  match rest with
  | EmptyString => []
  | String c t =>
      ((if Ascii.eqb c slash && negb (String.eqb pre "") then [pre] else [])
       ++ prefixes_at_slash (pre ++ String c EmptyString) t)%list
  end.

(** The directories on the way down to [p], then [p]. *)
Definition ancestors (p : string) : list string :=
  (prefixes_at_slash "" p ++ [p])%list.

Fixpoint strip_prefix (pre s : string) : option string :=
  match pre, s with
  | EmptyString, _ => Some s
  | String a pre', String b s' =>
      if Ascii.eqb a b then strip_prefix pre' s' else None
  | String _ _, EmptyString => None
  end.

Fixpoint has_slash (s : string) : bool :=
  match s with
  | EmptyString => false
  | String c t => Ascii.eqb c slash || has_slash t
  end.

(** [Some name] when [p] is the entry [name] of the directory [dir]. *)
Definition child_name (dir p : string) : option string :=
  match strip_prefix (dir ++ "/") p with
  | Some name =>
      if String.eqb name "" || has_slash name then None else Some name
  | None => None
  end.

End Path.

Module Fs.

Definition existsSync (p : string) : M bool :=
  fun w => (inr (bool_decide (is_Some (disk w !! p))), w).

Definition readFileSync (p : string) : M string :=
  fun w =>
    match disk w !! p with
    | Some (File content) => (inr content, w)
    | Some Dir => (inl (IOFailure "EISDIR" p), w)
    | None => (inl (IOFailure "ENOENT" p), w)
    end.

(** The names under a directory, in the order the map enumerates them. *)
Definition names (dir : string) (d : gmap string node) : list string :=
  omap (fun entry => Path.child_name dir (fst entry)) (map_to_list d).

Definition readdirSync (p : string) : M (list string) :=
  fun w =>
    match disk w !! p with
    | Some Dir => (inr (names p (disk w)), w)
    | Some (File _) => (inl (IOFailure "ENOTDIR" p), w)
    | None => (inl (IOFailure "ENOENT" p), w)
    end.

(** One step of [mkdir -p]: make [p] a directory unless it is one. *)
Definition mkdir_step (p : string) : M unit :=
  fun w =>
    match disk w !! p with
    | None => (inr tt, on_disk <[p := Dir]> w)
    | Some Dir => (inr tt, w)
    | Some (File _) => (inl (IOFailure "ENOTDIR" p), w)
    end.

(** [fs.mkdirSync(p, { recursive: true })] *)
Definition mkdirSync (p : string) : M unit :=
  foldr (fun a k => mkdir_step a ;; k) (mret tt) (Path.ancestors p).

(** The directory a new file goes into has to be there; the root and the
    working directory always are. *)
Definition parent_ready (p : string) (d : gmap string node)
    : option error :=
  match Path.dirname p with
  | None | Some EmptyString => None
  | Some dir =>
      match d !! dir with
      | Some Dir => None
      | Some (File _) => Some (IOFailure "ENOTDIR" p)
      | None => Some (IOFailure "ENOENT" p)
      end
  end.

(** [writeFile(p, content, 'utf8')] of [fs/promises], awaited. *)
Definition writeFile (p content : string) : M unit :=
  fun w =>
    match disk w !! p with
    | Some (File _) => (inr tt, on_disk <[p := File content]> w)
    | Some Dir => (inl (IOFailure "EISDIR" p), w)
    | None =>
        match parent_ready p (disk w) with
        | None => (inr tt, on_disk <[p := File content]> w)
        | Some e => (inl e, w)
        end
    end.

Definition unlinkSync (p : string) : M unit :=
  fun w =>
    match disk w !! p with
    | Some (File _) => (inr tt, on_disk (delete p) w)
    | Some Dir => (inl (IOFailure "EISDIR" p), w)
    | None => (inl (IOFailure "ENOENT" p), w)
    end.

End Fs.

(** ** The adapter ([yamlCRUD], yaml.ts) *)

Module Yaml.

(** [file.endsWith(suffix)] *)
Definition endsWith (s suffix : string) : bool :=
  let n := String.length s in
  let k := String.length suffix in
  (k <=? n)%nat && String.eqb (String.substring (n - k) k s) suffix.

(** [file.slice(0, -n)] *)
Definition drop_last (n : nat) (s : string) : string :=
  String.substring 0 (String.length s - n) s.

Section Adapter.

(** [options.databasePath], and the external packages: [YAML.stringify],
    [YAML.parse] ([None] where it throws) and the ids that
    [generateId()] returns, call after call. *)
Context (databasePath : string)
        (stringify : record -> string)
        (parse : string -> option record)
        (ids : nat -> string).

Definition tablePath (name : string) : string :=
  databasePath ++ "/" ++ name.

Definition recordPath (table id : string) : string :=
  tablePath table ++ "/" ++ id ++ ".yaml".

Definition readRecord (table id : string) : M record :=
  let path := recordPath table id in
  present ← Fs.existsSync path;
  if negb present then throw (NotFound path)
  else
    file ← Fs.readFileSync path;
    match parse file with
    | Some r => mret r
    | None => throw (ParseFailure path)
    end.

Definition generateId : M string :=
  fun w => (inr (ids (issued w)),
            {| disk := disk w; issued := S (issued w) |}).

(** [await fileMutex.run(fn)] while no other write is in flight: the
    gate's chain has settled, [fn] runs at once and the await yields
    its outcome.  The gate itself is modelled in [Gate] below. *)
Definition fileMutex_run {A} (fn : M A) : M A := fn.

Definition find (table id : string) : M record :=
  readRecord table id.

Definition create (table : string) (data : record) : M record :=
  let path := tablePath table in
  present ← Fs.existsSync path;
  (if negb present then Fs.mkdirSync path else mret tt) ;;
  id ← generateId;
  let record := data ∪ {[ "id" := VStr id ]} in   (* { id, ...data } *)
  let filePath := recordPath table id in
  fileMutex_run (Fs.writeFile filePath (stringify record)) ;;
  mret record.

Definition update (table id : string) (data : record) : M record :=
  record ← readRecord table id;
  let updatedRecord := data ∪ record in   (* { ...record, ...data } *)
  fileMutex_run
    (Fs.writeFile (recordPath table id) (stringify updatedRecord)) ;;
  mret updatedRecord.

Definition remove (table id : string) : M record :=
  let path := recordPath table id in
  data ← readRecord table id;
  present ← Fs.existsSync path;
  if negb present then throw (NotFound path)
  else
    Fs.unlinkSync path ;;
    mret (data ∪ {[ "id" := VStr id ]}).   (* { id, ...data } *)

(** The [for (const file of files)] loop of [list]. *)
Fixpoint load (table : string) (files : list string) : M (list record) :=
  match files with
  | [] => mret []
  | file :: rest =>
      found ←
        (if endsWith file ".yaml" then
           let id := drop_last 5 file in
           try_catch (r ← readRecord table id; mret [r])
                     (fun _ => mret [])
         else mret []);
      more ← load table rest;
      mret (found ++ more)%list
  end.

Definition list (table : string) (query : option Query)
    : M (list record) :=
  let path := tablePath table in
  present ← Fs.existsSync path;
  if negb present then mret []
  else
    files ← Fs.readdirSync path;
    records ← load table files;
    pure_step (Shape.apply_query query records).

End Adapter.

End Yaml.

(** ** A codec and an id generator to run the adapter with

    [Flat] writes a record of scalars one [key: value] line per property,
    strings in double quotes, and reads such text back; properties whose
    value is [undefined] are left out, as [YAML.stringify] leaves them out.
    It stands in for the [yaml] package in the examples below. *)

Module Flat.

Definition newline : string := String (ascii_of_nat 10) EmptyString.
Definition quote : ascii := ascii_of_nat 34.

Definition scalar (v : value) : option string :=
  match v with
  | VUndefined => None
  | VNull => Some "null"
  | VBool true => Some "true"
  | VBool false => Some "false"
  | VNum n => Some (pretty n)
  | VStr s => Some (String quote s ++ String quote EmptyString)
  | VArr _ | VObj _ => Some "?"
  end.

Definition line (entry : string * value) : string :=
  match scalar (snd entry) with
  | Some text => fst entry ++ ": " ++ text ++ newline
  | None => ""
  end.

Definition stringify (r : record) : string :=
  foldr (fun entry rest => line entry ++ rest) "" (map_to_list r).

(** Split at the first occurrence of the character [c]. *)
Fixpoint split_at (c : ascii) (s : string) : option (string * string) :=
  match s with
  | EmptyString => None
  | String a t =>
      if Ascii.eqb a c then Some (EmptyString, t)
      else match split_at c t with
           | Some (l, r) => Some (String a l, r)
           | None => None
           end
  end.

Definition unquote (s : string) : option string :=
  match s with
  | String a t =>
      if Ascii.eqb a quote && Yaml.endsWith t (String quote EmptyString)
      then Some (Yaml.drop_last 1 t) else None
  | EmptyString => None
  end.

Definition read_scalar (s : string) : option value :=
  if String.eqb s "null" then Some VNull
  else if String.eqb s "true" then Some (VBool true)
  else if String.eqb s "false" then Some (VBool false)
  else match unquote s with
       | Some text => Some (VStr text)
       | None =>
           if String.eqb s "" then None
           else VNum <$> JS.StringToNumber s
       end.

Definition read_line (l : string) : option (string * value) :=
  match split_at ":" l with
  | Some (key, String " " text) =>
      v ← read_scalar text; Some (key, v)
  | _ => None
  end.

(** [fuel] bounds the number of lines. *)
Fixpoint read_lines (fuel : nat) (s : string) : option record :=
  match fuel with
  | O => None
  | S fuel' =>
      if String.eqb s "" then Some ∅
      else
        match split_at (ascii_of_nat 10) s with
        | Some (l, rest) =>
            entry ← read_line l;
            r ← read_lines fuel' rest;
            Some (<[fst entry := snd entry]> r)
        | None => None
        end
  end.

Definition parse (s : string) : option record :=
  read_lines (S (String.length s)) s.

(** The n-th id is [idN]. *)
Definition ids (n : nat) : string := "id" ++ pretty n.

End Flat.

(** The adapter over the database [/db] with the [Flat] codec, and the
    worlds and queries of the examples. *)
Module Demo.

Definition db : string := "/db".

Definition find := Yaml.find db Flat.parse.
Definition create := Yaml.create db Flat.stringify Flat.ids.
Definition update := Yaml.update db Flat.stringify Flat.parse.
Definition remove := Yaml.remove db Flat.parse.

Definition fresh : world := {| disk := ∅; issued := 0 |}.

(** The world after [op] (whether it threw or not). *)
Definition after {A} (op : M A) (w : world) : world := snd (op w).

Definition ann_data : record :=
  {[ "name" := VStr "ann"; "age" := VNum 10 ]}.

Definition people : list record :=
  [ ann_data;
    {[ "name" := VStr "bob"; "age" := VNum 20 ]};
    {[ "name" := VStr "cy"; "age" := VNum 30 ]} ].

(** [/db/people] after three calls of [create]. *)
Definition populated : world :=
  foldl (fun w data => after (create "people" data) w) fresh people.

(** The three records as stored. *)
Definition ann : record :=
  {[ "id" := VStr "id0"; "name" := VStr "ann"; "age" := VNum 10 ]}.
Definition bob : record :=
  {[ "id" := VStr "id1"; "name" := VStr "bob"; "age" := VNum 20 ]}.
Definition cy : record :=
  {[ "id" := VStr "id2"; "name" := VStr "cy"; "age" := VNum 30 ]}.

(** A table directory that holds no record file. *)
Definition drafts : world :=
  {| disk := {[ "/db" := Dir; "/db/drafts" := Dir;
                "/db/drafts/notes.txt" := File "to do" ]};
     issued := 0 |}.

(** A change of age, and a change of id. *)
Definition older : record := {[ "age" := VNum 21 ]}.
Definition renamed : record := {[ "id" := VStr "zed" ]}.

(** Data that takes the id away: [{ id: undefined }]. *)
Definition no_id : record := {[ "id" := VUndefined ]}.

(** Data that brings an id of its own. *)
Definition dee : record := {[ "id" := VStr "x"; "name" := VStr "dee" ]}.

(** Worlds after one more operation. *)
Definition with_ann : world := after (create "people" ann_data) fresh.
Definition with_dee : world := after (create "people" dee) fresh.
Definition bob_renamed : world :=
  after (update "people" "id1" renamed) populated.
Definition bob_removed : world := after (remove "people" "id1") populated.
Definition bob_without_id : world :=
  after (update "people" "id1" no_id) populated.
Definition nobody_without_id : world :=
  after (remove "people" "id1") bob_without_id.

(** Bob as stored after that update. *)
Definition bob_stored : record :=
  {[ "name" := VStr "bob"; "age" := VNum 20 ]}.

(** [{ $or: [{ age: 99 }] }] and [{ $and: [{ age: 99 }] }] *)
Definition or_nobody : Query :=
  filter_query [("$or", VArr [VObj [("age", VNum 99)]])].
Definition and_nobody : Query :=
  filter_query [("$and", VArr [VObj [("age", VNum 99)]])].

(** [{ $limit: 0 }] *)
Definition limit_zero : Query :=
  {| q_limit := Some 0; q_skip := None; q_sort := None; q_select := None;
     q_filters := [] |}.

(** [{ $select: ['age'] }] *)
Definition select_age : Query :=
  {| q_limit := None; q_skip := None; q_sort := None;
     q_select := Some ["age"]; q_filters := [] |}.

(** [{ $select: ['age', 'nick'] }] *)
Definition select_age_nick : Query :=
  {| q_limit := None; q_skip := None; q_sort := None;
     q_select := Some ["age"; "nick"]; q_filters := [] |}.

(** [{ age: { $gte: 15 } }] *)
Definition of_age : Query :=
  filter_query [("age", VObj [("$gte", VNum 15)])].

(** [{ $sort: { age: -1 }, $limit: 2 }] *)
Definition two_oldest : Query :=
  {| q_limit := Some 2; q_skip := None; q_sort := Some [("age", -1)];
     q_select := None; q_filters := [] |}.

Definition list := Yaml.list db Flat.parse.

End Demo.

(** ** The write gate ([Mutex], queue.ts)

    Promises are modelled by what the gate does with them: a promise is
    pending or settled, [then] and [catch] register a reaction on a promise
    and return the promise derived from it, and a reaction runs some time
    after its promise has settled.  A scheduled operation, once called,
    settles when its environment decides, with any outcome. *)

Module Gate.

#[local] Open Scope list_scope.

(** A promise is named after the expression that made it: the field
    initialiser [Promise.resolve()], and the [result] and the
    [result.catch(...)] of the k-th call of [run]. *)
Inductive pid : Type :=
  | Initial
  | Result (call : nat)
  | Tail (call : nat).

#[global] Instance pid_eq_dec : EqDecision pid.
Proof. solve_decision. Defined.

Section Gate.

(** What operations fulfil with, and what they reject with. *)
Context {V E : Type}.

(** [Fulfilled None] is fulfilment with [undefined]. *)
Inductive outcome : Type :=
  | Fulfilled (v : option V)
  | Rejected (e : E).

Inductive cell : Type :=
  | Pending
  | Settled (o : outcome).

(** [p.then(fn)] and [p.catch(() => {})], each with the promise it
    returned.  Operations are numbered in the order they are handed
    to [run]. *)
Inductive reaction : Type :=
  | Then (fn : nat) (derived : pid)
  | Catch (derived : pid).

Record state : Type := {
  cells : pid -> cell;
  reactions : list (pid * reaction);  (* registered, not yet run *)
  running : list (nat * pid);         (* called, not yet settled *)
  promise : pid;                      (* this.promise *)
  calls : nat                         (* calls of run so far *)
}.

(** [private promise = Promise.resolve()] *)
Definition init : state :=
  {| cells := fun p =>
       match p with
       | Initial => Settled (Fulfilled None)
       | _ => Pending
       end;
     reactions := [];
     running := [];
     promise := Initial;
     calls := 0 |}.

Definition register (p : pid) (rx : reaction) (s : state) : state :=
  {| cells := cells s;
     reactions := reactions s ++ [(p, rx)];
     running := running s;
     promise := promise s;
     calls := calls s |}.

(** [run(fn)], for the operation numbered [calls s]: the handle it
    returns, and the state it leaves.  ([run] is an [async] method: the
    promise its caller holds settles as [result] does, and is
    identified with it.) *)
Definition run (s : state) : pid * state :=
  let fn := calls s in
  (* const result = this.promise.then(fn) *)
  let result := Result fn in
  let s1 := register (promise s) (Then fn result) s in
  (* this.promise = result.catch(() => {}) *)
  let tail := Tail fn in
  let s2 := register result (Catch tail) s1 in
  (* return result *)
  (result,
   {| cells := cells s2;
      reactions := reactions s2;
      running := running s2;
      promise := tail;
      calls := S fn |}).

Definition settle (q : pid) (o : outcome) (s : state) : state :=
  {| cells := <[q := Settled o]> (cells s);
     reactions := reactions s;
     running := running s;
     promise := promise s;
     calls := calls s |}.

Definition with_reactions (l : list (pid * reaction)) (s : state)
    : state :=
  {| cells := cells s;
     reactions := l;
     running := running s;
     promise := promise s;
     calls := calls s |}.

Definition with_running (l : list (nat * pid)) (s : state) : state :=
  {| cells := cells s;
     reactions := reactions s;
     running := l;
     promise := promise s;
     calls := calls s |}.

(** What an observer sees happen. *)
Inductive label : Type :=
  | Call (fn : nat) (handle : pid)    (* run(fn) returned handle *)
  | Start (fn : nat)                  (* fn was called *)
  | Finish (fn : nat) (o : outcome)   (* fn's promise settled *)
  | Tick.                             (* a reaction that calls nothing *)

Inductive step : state -> label -> state -> Prop :=
  | step_call s :
      step s (Call (calls s) (fst (run s))) (snd (run s))
  (* p.then(fn), p fulfilled: fn is called *)
  | step_then s before after p fn q v :
      reactions s = before ++ (p, Then fn q) :: after ->
      cells s p = Settled (Fulfilled v) ->
      step s (Start fn)
        (with_running (running s ++ [(fn, q)])
           (with_reactions (before ++ after) s))
  (* p.then(fn), p rejected: fn is skipped, the rejection passes on *)
  | step_then_skip s before after p fn q e :
      reactions s = before ++ (p, Then fn q) :: after ->
      cells s p = Settled (Rejected e) ->
      step s Tick
        (settle q (Rejected e) (with_reactions (before ++ after) s))
  (* p.catch(() => {}), p fulfilled: the value passes on *)
  | step_catch_pass s before after p q v :
      reactions s = before ++ (p, Catch q) :: after ->
      cells s p = Settled (Fulfilled v) ->
      step s Tick
        (settle q (Fulfilled v) (with_reactions (before ++ after) s))
  (* p.catch(() => {}), p rejected: the handler returns undefined *)
  | step_catch_swallow s before after p q e :
      reactions s = before ++ (p, Catch q) :: after ->
      cells s p = Settled (Rejected e) ->
      step s Tick
        (settle q (Fulfilled None) (with_reactions (before ++ after) s))
  (* the promise fn returned settles, and with it the derived one *)
  | step_finish s before after fn q o :
      running s = before ++ (fn, q) :: after ->
      step s (Finish fn o)
        (settle q o (with_running (before ++ after) s)).

(** Runs of the gate from its initial state, with what was observed,
    oldest first. *)
Inductive exec : list label -> state -> Prop :=
  | exec_init : exec [] init
  | exec_step tr s l s' :
      exec tr s -> step s l s' -> exec (tr ++ [l]) s'.

End Gate.

Arguments outcome : clear implicits.
Arguments cell : clear implicits.
Arguments state : clear implicits.
Arguments label : clear implicits.

End Gate.

(** ** The states the gate can reach *)

Module GateInv.
Import Gate.
#[local] Open Scope list_scope.
#[local] Open Scope nat_scope.

Section Inv.
Context {V E : Type}.

#[local] Abbreviation outcome := (Gate.outcome V E).
#[local] Abbreviation state := (Gate.state V E).
#[local] Abbreviation label := (Gate.label V E).

(** Where the operation at the head of the queue stands. *)
Inductive front : Type :=
  | Idle                    (* not called yet, or there is none *)
  | Busy                    (* called, not settled *)
  | Settling (o : outcome). (* settled, its [catch] not yet run *)

(** The promise [this.promise] at the k-th call of [run]. *)
Definition prev (k : nat) : pid :=
  match k with
  | O => Initial
  | S j => Tail j
  end.

(** The two reactions the k-th call registers. *)
Definition queued (k : nat) : list (pid * reaction) :=
  [(prev k, Then k (Result k)); (Result k, Catch (Tail k))].

(** The reactions of the calls [from], ..., [n - 1]. *)
Definition waiting (from n : nat) : list (pid * reaction) :=
  flat_map queued (seq from (n - from)).

Definition value_of (o : outcome) : option V :=
  match o with
  | Fulfilled v => v
  | Rejected _ => None
  end.

(** The shape of every state the gate can reach: the operations
    [0 .. length outs - 1] are over, with outcomes [outs], the next one
    stands as [f] says, and the rest wait in line. *)
Record inv (tr : list label) (s : state) (outs : list outcome)
    (f : front) : Prop := {
  inv_bound : length outs <= calls s;
  inv_front : f <> Idle -> length outs < calls s;
  inv_initial : cells s Initial = Settled (Fulfilled None);
  inv_over : forall k o, outs !! k = Some o ->
    cells s (Result k) = Settled o
    /\ cells s (Tail k) = Settled (Fulfilled (value_of o));
  inv_current : cells s (Result (length outs)) =
    match f with
    | Settling o => Settled o
    | _ => Pending
    end;
  inv_later_result : forall k, length outs < k ->
    cells s (Result k) = Pending;
  inv_later_tail : forall k, length outs <= k ->
    cells s (Tail k) = Pending;
  inv_reactions : reactions s =
    match f with
    | Idle => waiting (length outs) (calls s)
    | _ => (Result (length outs), Catch (Tail (length outs)))
             :: waiting (S (length outs)) (calls s)
    end;
  inv_running : running s =
    match f with
    | Busy => [(length outs, Result (length outs))]
    | _ => []
    end;
  inv_promise : promise s = prev (calls s);
  inv_calls : forall k h,
    Call k h ∈ tr <-> k < calls s /\ h = Result k;
  inv_starts : forall k,
    Start k ∈ tr <-> k < length outs \/ (k = length outs /\ f <> Idle);
  inv_finishes : forall k o,
    Finish k o ∈ tr <->
    outs !! k = Some o \/ (k = length outs /\ f = Settling o)
}.
End Inv.
End GateInv.

(** A run of the gate: the first operation fails while a second one is
    already in line. *)
Module GateDemo.
Import Gate.

#[local] Open Scope list_scope.
#[local] Open Scope nat_scope.

Definition trace : list (label unit string) :=
  [ Call 0 (Result 0); Start 0; Call 1 (Result 1);
    Finish 0 (Rejected "EIO"); Tick ].

Definition s1 : state unit string := snd (run init).
Definition s2 : state unit string :=
  with_running [(0, Result 0)]
    (with_reactions [(Result 0, Catch (Tail 0))] s1).
Definition s3 : state unit string := snd (run s2).
Definition s4 : state unit string :=
  settle (Result 0) (Rejected "EIO") (with_running [] s3).
Definition s5 : state unit string :=
  settle (Tail 0) (Fulfilled None)
    (with_reactions
       [(Tail 0, Then 1 (Result 1)); (Result 1, Catch (Tail 1))] s4).
Definition s6 : state unit string :=
  with_running [(1, Result 1)]
    (with_reactions [(Result 1, Catch (Tail 1))] s5).

End GateDemo.

(** ** More queries *)

(** A query that only sorts. *)
Definition sort_query (sort : list (string * Z)) : Query :=
  {| q_limit := None; q_skip := None; q_sort := Some sort;
     q_select := None; q_filters := [] |}.

(** The query of page [k], pages of [size] records. *)
Definition page_query (size k : nat) : Query :=
  {| q_limit := Some (Z.of_nat size); q_skip := Some (Z.of_nat (k * size));
     q_sort := None; q_select := None; q_filters := [] |}.

(** ** What a run of the gate shows, by kind of event *)

Module GateTrace.
Import Gate.

Section Trace.
Context {V E : Type}.

(** The operations handed to [run], in the order of the calls. *)
Definition scheduled (tr : list (label V E)) : list nat :=
  omap (fun l => match l with Call fn _ => Some fn | _ => None end) tr.

(** The operations called, in the order they were called. *)
Definition started (tr : list (label V E)) : list nat :=
  omap (fun l => match l with Start fn => Some fn | _ => None end) tr.

(** The operations settled, in the order they settled. *)
Definition finished (tr : list (label V E)) : list nat :=
  omap (fun l => match l with Finish fn _ => Some fn | _ => None end) tr.
End Trace.
End GateTrace.

(** ** More worlds and queries to run the adapter on *)

Module Demo2.

Definition bob_data : record :=
{[ "name" := VStr "bob"; "age" := VNum 20 ]}.

(** [/db/people] after [create] of ann, then of bob. *)
Definition ann_then_bob : world :=
Demo.after (Demo.create "people" bob_data) Demo.with_ann.

(** Bob after [update] with [Demo.older]. *)
Definition bob_older : world :=
Demo.after (Demo.update "people" "id1" Demo.older) Demo.populated.

End Demo2.

(** ** Reasoning about computations *)

Lemma bind_unfold {A B} (m : M A) (k : A -> M B) (w : world) :
  (m ≫= k) w =
    match m w with
    | (inr x, w') => k x w'
    | (inl e, w') => (inl e, w')
    end.
Proof. reflexivity. Qed.

Lemma bind_returns {A B} (m : M A) (k : A -> M B) w y w' :
  (m ≫= k) w = (inr y, w') ->
  exists x w1, m w = (inr x, w1) /\ k x w1 = (inr y, w').
Proof.
  rewrite bind_unfold. destruct (m w) as [[e|x] w1]; [discriminate|].
  intros H. by exists x, w1.
Qed.

Lemma bind_step {A B} (m : M A) (k : A -> M B) w x w1 :
  m w = (inr x, w1) -> (m ≫= k) w = k x w1.
Proof. intros H. by rewrite bind_unfold, H. Qed.

Lemma bind_throws {A B} (m : M A) (k : A -> M B) w e w1 :
  m w = (inl e, w1) -> (m ≫= k) w = (inl e, w1).
Proof. intros H. by rewrite bind_unfold, H. Qed.

Lemma existsSync_unfold p w :
  Fs.existsSync p w = (inr (bool_decide (is_Some (disk w !! p))), w).
Proof. reflexivity. Qed.

Lemma writeFile_returns p content w w' :
  Fs.writeFile p content w = (inr tt, w') ->
  w' = on_disk <[p := File content]> w.
Proof.
  unfold Fs.writeFile.
  destruct (disk w !! p) as [[?|]|]; [congruence|discriminate|].
  destruct (Fs.parent_ready p (disk w)); [discriminate|congruence].
Qed.

Lemma writeFile_over p content old w :
  disk w !! p = Some (File old) ->
  Fs.writeFile p content w = (inr tt, on_disk <[p := File content]> w).
Proof. intros H. unfold Fs.writeFile. by rewrite H. Qed.

Section AdapterFacts.
Context (db : string) (stringify : record -> string)
        (parse : string -> option record) (ids : nat -> string).

#[local] Abbreviation recordPath := (Yaml.recordPath db).
#[local] Abbreviation tablePath := (Yaml.tablePath db).
#[local] Abbreviation readRecord := (Yaml.readRecord db parse).
#[local] Abbreviation find := (Yaml.find db parse).
#[local] Abbreviation create := (Yaml.create db stringify ids).
#[local] Abbreviation update := (Yaml.update db stringify parse).
#[local] Abbreviation remove := (Yaml.remove db parse).

Lemma readRecord_unfold table id w :
  readRecord table id w =
    let path := recordPath table id in
    match disk w !! path with
    | None => (inl (NotFound path), w)
    | Some Dir => (inl (IOFailure "EISDIR" path), w)
    | Some (File content) =>
        match parse content with
        | Some r => (inr r, w)
        | None => (inl (ParseFailure path), w)
        end
    end.
Proof.
  unfold Yaml.readRecord. cbn zeta.
  rewrite bind_unfold, existsSync_unfold.
  destruct (disk w !! recordPath table id) as [[content|]|] eqn:E; simpl.
  - rewrite bind_unfold. unfold Fs.readFileSync. rewrite E.
    by destruct (parse content).
  - rewrite bind_unfold. unfold Fs.readFileSync. by rewrite E.
  - reflexivity.
Qed.

Lemma readRecord_pure table id w x w' :
  readRecord table id w = (x, w') -> w' = w.
Proof.
  rewrite readRecord_unfold. cbn zeta.
  destruct (disk w !! _) as [[content|]|]; [destruct (parse content)|..];
    congruence.
Qed.

Lemma readRecord_stored table id w content r :
  disk w !! recordPath table id = Some (File content) ->
  parse content = Some r ->
  readRecord table id w = (inr r, w).
Proof. intros Hd Hp. rewrite readRecord_unfold. cbn zeta. by rewrite Hd, Hp. Qed.

Lemma readRecord_returns table id w r w' :
  readRecord table id w = (inr r, w') ->
  exists content,
    disk w !! recordPath table id = Some (File content)
    /\ parse content = Some r /\ w' = w.
Proof.
  rewrite readRecord_unfold. cbn zeta.
  destruct (disk w !! _) as [[content|]|]; [|discriminate..].
  destruct (parse content) eqn:Hp; [|discriminate].
  intros [= <- <-]. eauto.
Qed.

Lemma readRecord_absent table id w :
  disk w !! recordPath table id = None ->
  readRecord table id w = (inl (NotFound (recordPath table id)), w).
Proof. intros H. rewrite readRecord_unfold. cbn zeta. by rewrite H. Qed.

Lemma readRecord_NotFound table id w p w' :
  readRecord table id w = (inl (NotFound p), w') ->
  disk w !! recordPath table id = None.
Proof.
  rewrite readRecord_unfold. cbn zeta.
  destruct (disk w !! _) as [[content|]|]; [destruct (parse content)|..];
    congruence.
Qed.

(** C1 (amended).  When [create(table, data)] returns the record [R],
    then [R] is [data] with the generated id as the default for its [id]
    property: [R.id] is the generated id for every [data] without an [id]
    property of its own, and an [id] property of [data] overrides it.
    The file is named after the generated id, so [find] with the
    generated id returns [R], given that the codec reads [R] back from
    what it wrote for it. *)
Theorem create_then_find table data w R w' :
  create table data w = (inr R, w') ->
  parse (stringify R) = Some R ->
  exists id,
    R = data ∪ {[ "id" := VStr id ]}
    /\ (data !! "id" = None -> get R "id" = VStr id)
    /\ find table id w' = (inr R, w').
Proof.
  intros Hcreate Hcodec. unfold Yaml.create in Hcreate.
  cbn zeta in Hcreate.
  apply bind_returns in Hcreate as (present & w0 & _ & Hcreate).
  apply bind_returns in Hcreate as ([] & w1 & _ & Hcreate).
  apply bind_returns in Hcreate as (id & w2 & Hgen & Hcreate).
  apply bind_returns in Hcreate as ([] & w3 & Hwrite & Hret).
  injection Hret as <- <-.
  apply writeFile_returns in Hwrite as ->.
  exists id. split; [done|]. split.
  - intros Hid. unfold get. rewrite lookup_union_r by done.
    by rewrite lookup_singleton_eq.
  - unfold Yaml.find. eapply readRecord_stored; [|exact Hcodec].
    simpl. apply lookup_insert_eq.
Qed.

(** C2 (amended).  For a record [R] that [find(table, id)] returns,
    [update(table, id, data)] returns the shallow merge of [data] over
    [R] and writes its serialisation to the record's file, so that [find]
    returns the merged record when the codec reads it back.  Every
    property of [data] takes [data]'s value and every other property
    keeps [R]'s; the [id] property is merged like any other, and so it
    stays [R.id] when [data] has no [id] property. *)
Theorem update_merges table id data w R :
  find table id w = (inr R, w) ->
  let merged := data ∪ R in
  exists w',
    update table id data w = (inr merged, w')
    /\ disk w' = <[recordPath table id := File (stringify merged)]> (disk w)
    /\ (parse (stringify merged) = Some merged ->
        find table id w' = (inr merged, w'))
    /\ (forall f v, data !! f = Some v -> merged !! f = Some v)
    /\ (forall f, data !! f = None -> merged !! f = R !! f)
    /\ (data !! "id" = None -> merged !! "id" = R !! "id").
Proof.
  intros Hfind merged. unfold Yaml.find in Hfind.
  destruct (readRecord_returns _ _ _ _ _ Hfind) as (old & Hold & _ & _).
  exists (on_disk <[recordPath table id := File (stringify merged)]> w).
  split; [|split; [done|split; [|split; [|split]]]].
  - unfold Yaml.update.
    rewrite (bind_step _ _ _ _ _ Hfind). cbn zeta.
    unfold Yaml.fileMutex_run.
    by rewrite (bind_step _ _ _ _ _ (writeFile_over _ _ _ _ Hold)).
  - intros Hcodec. unfold Yaml.find.
    eapply readRecord_stored; [|exact Hcodec]. simpl. apply lookup_insert_eq.
  - intros f v Hf. by apply lookup_union_Some_l.
  - intros f Hf. by apply lookup_union_r.
  - intros Hf. by apply lookup_union_r.
Qed.


Lemma remove_unfold table id w :
  remove table id w =
    let path := recordPath table id in
    match disk w !! path with
    | None => (inl (NotFound path), w)
    | Some Dir => (inl (IOFailure "EISDIR" path), w)
    | Some (File content) =>
        match parse content with
        | Some data =>
            (inr (data ∪ {[ "id" := VStr id ]}), on_disk (delete path) w)
        | None => (inl (ParseFailure path), w)
        end
    end.
Proof.
  unfold Yaml.remove. cbn zeta.
  rewrite bind_unfold, readRecord_unfold. cbn zeta.
  destruct (disk w !! recordPath table id) as [[content|]|] eqn:E;
    [|done..].
  destruct (parse content) as [data|]; [|done].
  rewrite bind_unfold, existsSync_unfold, E. simpl.
  rewrite bind_unfold. unfold Fs.unlinkSync. by rewrite E.
Qed.

Lemma with_own_id (data : record) (id : string) :
  is_Some (data !! "id") -> data ∪ {[ "id" := VStr id ]} = data.
Proof.
  intros [v Hv]. apply map_eq. intros key.
  destruct (data !! key) as [x|] eqn:E.
  - by apply lookup_union_Some_l.
  - rewrite lookup_union_r by done. apply lookup_singleton_ne. congruence.
Qed.

(** C7 (amended).  [remove(table, id)] throws the not-found error
    exactly when nothing is stored at the record's path.  For a record
    that [find(table, id)] returns, [remove] returns too, and what it
    returns is [{ id, ...data }]: the stored state [data] with the [id]
    it was called with as the default for the [id] property.  That is
    the stored state itself exactly when the stored state has an [id]
    property; every other property is as stored.  The record's file is
    deleted, the rest of the world stays as it was, and [find(table,
    id)] afterwards throws the not-found error.  [remove] returns only
    for a record that [find] returns. *)
Theorem remove_spec table id w :
  let path := recordPath table id in
  ((exists p w', remove table id w = (inl (NotFound p), w'))
     <-> disk w !! path = None)
  /\ (forall data,
        find table id w = (inr data, w) ->
        let returned := data ∪ {[ "id" := VStr id ]} in
        let w' := on_disk (delete path) w in
        remove table id w = (inr returned, w')
        /\ (returned = data <-> is_Some (data !! "id"))
        /\ (forall key, key <> "id" -> returned !! key = data !! key)
        /\ find table id w' = (inl (NotFound path), w'))
  /\ (forall r w',
        remove table id w = (inr r, w') ->
        exists data, find table id w = (inr data, w)).
Proof.
  intros path. split; [|split].
  - rewrite remove_unfold. cbn zeta. fold path. split.
    + intros (p & w' & H).
      destruct (disk w !! path) as [[content|]|]; [|done..].
      by destruct (parse content).
    + intros ->. eauto.
  - intros data Hfind returned w'. unfold Yaml.find in Hfind.
    apply readRecord_returns in Hfind as (content & Hfile & Hparse & _).
    fold path in Hfile. repeat split.
    + rewrite remove_unfold. cbn zeta. fold path.
      by rewrite Hfile, Hparse.
    + intros Hsame. destruct (data !! "id") as [v|] eqn:Hid; [by eexists|].
      assert (returned !! "id" = Some (VStr id)) as Hreturned.
      { unfold returned. rewrite lookup_union_r by done.
        apply lookup_singleton_eq. }
      rewrite Hsame in Hreturned. congruence.
    + intros Hid. by apply with_own_id.
    + intros key Hkey. unfold returned.
      destruct (data !! key) as [v|] eqn:Hv.
      * by apply lookup_union_Some_l.
      * rewrite lookup_union_r by done. by apply lookup_singleton_ne.
    + unfold Yaml.find. apply readRecord_absent. simpl.
      apply lookup_delete_eq.
  - intros r w'. rewrite remove_unfold. cbn zeta. fold path.
    destruct (disk w !! path) as [[content|]|] eqn:E; [|done..].
    destruct (parse content) as [data|] eqn:Hp; [|done].
    intros _. exists data. unfold Yaml.find. by eapply readRecord_stored.
Qed.

(** C10.  When nothing is stored at the record's path, [update] and
    [remove] throw the not-found error and leave the world, disk
    included, as it was. *)
Theorem absent_record_no_write table id data w :
  disk w !! recordPath table id = None ->
  update table id data w = (inl (NotFound (recordPath table id)), w)
  /\ remove table id w = (inl (NotFound (recordPath table id)), w).
Proof.
  intros H. split.
  - unfold Yaml.update. eapply bind_throws. by apply readRecord_absent.
  - rewrite remove_unfold. cbn zeta. by rewrite H.
Qed.

Lemma update_NotFound table id data w p w' :
  update table id data w = (inl (NotFound p), w') ->
  disk w !! recordPath table id = None /\ w' = w.
Proof.
  unfold Yaml.update. rewrite bind_unfold, readRecord_unfold. cbn zeta.
  destruct (disk w !! recordPath table id) as [[content|]|] eqn:E.
  - destruct (parse content); [|done].
    rewrite bind_unfold. unfold Yaml.fileMutex_run.
    erewrite writeFile_over by done. done.
  - done.
  - by intros [= <- <-].
Qed.

End AdapterFacts.

(** C1, counterexample.  Data with an [id] of its own: the record that
    [create] returns carries the data's id [x], the file is named after
    the generated id, and [find] with the returned record's id throws. *)
Lemma create_overridden_id :
  Demo.create "people" Demo.dee Demo.fresh = (inr Demo.dee, Demo.with_dee)
  /\ get Demo.dee "id" = VStr "x"
  /\ Demo.find "people" "x" Demo.with_dee
     = (inl (NotFound "/db/people/x.yaml"), Demo.with_dee)
  /\ disk Demo.with_dee !! "/db/people/id0.yaml"
     = Some (File (Flat.stringify Demo.dee)).
Proof. repeat split; reflexivity. Qed.

Lemma create_then_find_witness :
  Demo.create "people" Demo.ann_data Demo.fresh
    = (inr Demo.ann, Demo.with_ann)
  /\ Flat.parse (Flat.stringify Demo.ann) = Some Demo.ann
  /\ exists id,
       Demo.ann = Demo.ann_data ∪ {[ "id" := VStr id ]}
       /\ (Demo.ann_data !! "id" = None -> get Demo.ann "id" = VStr id)
       /\ Demo.find "people" id Demo.with_ann = (inr Demo.ann, Demo.with_ann).
Proof.
  assert (Demo.create "people" Demo.ann_data Demo.fresh
          = (inr Demo.ann, Demo.with_ann)) as Hcreate by reflexivity.
  assert (Flat.parse (Flat.stringify Demo.ann) = Some Demo.ann)
    as Hcodec by reflexivity.
  exact (conj Hcreate (conj Hcodec
    (create_then_find Demo.db Flat.stringify Flat.parse Flat.ids
       "people" Demo.ann_data Demo.fresh Demo.ann Demo.with_ann
       Hcreate Hcodec))).
Defined.

(** C2, counterexample.  Data with an [id] property: the merged record
    that [update] returns, and stores in the file of [id1], has the data's
    id and not the id of the record it was merged over. *)
Lemma update_overwrites_id :
  Demo.find "people" "id1" Demo.populated = (inr Demo.bob, Demo.populated)
  /\ Demo.update "people" "id1" Demo.renamed Demo.populated
     = (inr (Demo.renamed ∪ Demo.bob), Demo.bob_renamed)
  /\ get Demo.bob "id" = VStr "id1"
  /\ get (Demo.renamed ∪ Demo.bob) "id" = VStr "zed"
  /\ Demo.find "people" "id1" Demo.bob_renamed
     = (inr (Demo.renamed ∪ Demo.bob), Demo.bob_renamed).
Proof. repeat split; reflexivity. Qed.

Lemma update_merges_witness :
  Demo.find "people" "id1" Demo.populated = (inr Demo.bob, Demo.populated)
  /\ exists w',
       Demo.update "people" "id1" Demo.older Demo.populated
         = (inr (Demo.older ∪ Demo.bob), w')
       /\ disk w'
          = <[Yaml.recordPath Demo.db "people" "id1" :=
                File (Flat.stringify (Demo.older ∪ Demo.bob))]>
              (disk Demo.populated)
       /\ (Flat.parse (Flat.stringify (Demo.older ∪ Demo.bob))
             = Some (Demo.older ∪ Demo.bob) ->
           Demo.find "people" "id1" w'
             = (inr (Demo.older ∪ Demo.bob), w'))
       /\ (forall f v, Demo.older !! f = Some v ->
             (Demo.older ∪ Demo.bob) !! f = Some v)
       /\ (forall f, Demo.older !! f = None ->
             (Demo.older ∪ Demo.bob) !! f = Demo.bob !! f)
       /\ (Demo.older !! "id" = None ->
             (Demo.older ∪ Demo.bob) !! "id" = Demo.bob !! "id").
Proof.
  assert (Demo.find "people" "id1" Demo.populated
          = (inr Demo.bob, Demo.populated)) as Hfind by reflexivity.
  exact (conj Hfind
    (update_merges Demo.db Flat.stringify Flat.parse
       "people" "id1" Demo.older Demo.populated Demo.bob Hfind)).
Defined.

Lemma remove_spec_witness :
  Demo.find "people" "id1" Demo.populated = (inr Demo.bob, Demo.populated)
  /\ Demo.remove "people" "id1" Demo.populated
     = (inr (Demo.bob ∪ {[ "id" := VStr "id1" ]}),
        on_disk (delete (Yaml.recordPath Demo.db "people" "id1"))
          Demo.populated)
  /\ (Demo.bob ∪ {[ "id" := VStr "id1" ]} = Demo.bob
      <-> is_Some (Demo.bob !! "id"))
  /\ (forall key, key <> "id" ->
        (Demo.bob ∪ {[ "id" := VStr "id1" ]}) !! key = Demo.bob !! key)
  /\ Demo.find "people" "id1"
       (on_disk (delete (Yaml.recordPath Demo.db "people" "id1"))
          Demo.populated)
     = (inl (NotFound (Yaml.recordPath Demo.db "people" "id1")),
        on_disk (delete (Yaml.recordPath Demo.db "people" "id1"))
          Demo.populated).
Proof.
  assert (Demo.find "people" "id1" Demo.populated
          = (inr Demo.bob, Demo.populated)) as Hfind by reflexivity.
  exact (conj Hfind
    (proj1 (proj2 (remove_spec Demo.db Flat.parse "people" "id1"
                     Demo.populated))
       Demo.bob Hfind)).
Defined.

(** C7, counterexample.  A stored record without an [id] property, here
    bob after [update] with [{ id: undefined }] (the codec writes no
    property whose value is [undefined]): [find] returns the stored state,
    which has no [id], and [remove] returns a record with the [id] it was
    called with, which is not the state the record had before the
    deletion. *)
Lemma remove_adds_id :
  Demo.update "people" "id1" Demo.no_id Demo.populated
  = (inr (Demo.no_id ∪ Demo.bob), Demo.bob_without_id)
  /\ Demo.find "people" "id1" Demo.bob_without_id
     = (inr Demo.bob_stored, Demo.bob_without_id)
  /\ Demo.remove "people" "id1" Demo.bob_without_id
     = (inr Demo.bob, Demo.nobody_without_id)
  /\ Demo.bob_stored !! "id" = None
  /\ Demo.bob !! "id" = Some (VStr "id1").
Proof. repeat split; reflexivity. Qed.

(** [remove] of a stored record returns it, and it is gone afterwards. *)
Example remove_then_find :
  Demo.remove "people" "id1" Demo.populated = (inr Demo.bob, Demo.bob_removed)
  /\ Demo.find "people" "id1" Demo.bob_removed
     = (inl (NotFound "/db/people/id1.yaml"), Demo.bob_removed).
Proof. split; reflexivity. Qed.

Lemma absent_record_no_write_witness :
  disk Demo.populated !! Yaml.recordPath Demo.db "people" "zz" = None
  /\ Demo.update "people" "zz" Demo.older Demo.populated
     = (inl (NotFound (Yaml.recordPath Demo.db "people" "zz")),
        Demo.populated)
  /\ Demo.remove "people" "zz" Demo.populated
     = (inl (NotFound (Yaml.recordPath Demo.db "people" "zz")),
        Demo.populated).
Proof.
  assert (disk Demo.populated !! Yaml.recordPath Demo.db "people" "zz"
          = None) as Habsent by reflexivity.
  exact (conj Habsent
    (absent_record_no_write Demo.db Flat.stringify Flat.parse
       "people" "zz" Demo.older Demo.populated Habsent)).
Defined.

(** ** The JavaScript primitives on a few inputs *)

Example slice_from_the_end :
  JS.slice [1; 2; 3; 4; 5] (-2) 10 = [4; 5]
  /\ JS.slice [1; 2; 3; 4; 5] 1 3 = [2; 3]
  /\ JS.slice [1; 2; 3; 4; 5] 4 2 = [].
Proof. repeat split; reflexivity. Qed.

(** Ties keep their order: the sort is stable. *)
Example sort_by_tens :
  JS.sort (fun a b => a / 10 - b / 10) [31; 12; 35; 11; 20; 5]
  = [5; 12; 11; 20; 31; 35].
Proof. reflexivity. Qed.

Example loose_and_strict :
  JS.loose_eq (VStr "5") (VNum 5) = true
  /\ JS.strict_eq (VStr "5") (VNum 5) = false
  /\ JS.loose_eq VNull VUndefined = true
  /\ JS.loose_eq (VArr [VNum 5]) (VNum 5) = true
  /\ JS.lt (VStr "10") (VStr "9") = true
  /\ JS.lt (VStr "10") (VNum 9) = false
  /\ JS.lt VUndefined (VNum 9) = false.
Proof. repeat split; reflexivity. Qed.

Example array_entries :
  JS.entries (VArr [VNum 7; VNull]) = [("0", VNum 7); ("1", VNull)].
Proof. reflexivity. Qed.

(** ** The in-memory part of [list] *)

Lemma slice_whole {A} (l : list A) :
  JS.slice l 0 (0 + Z.of_nat (length l)) = l.
Proof.
  unfold JS.slice, JS.clamp_index. cbn zeta.
  replace (0 <? 0) with false by done.
  destruct (Z.ltb_spec (0 + Z.of_nat (length l)) 0); [lia|].
  rewrite (Z.min_l 0) by lia. rewrite Z.min_r by lia. simpl.
  rewrite Z.sub_0_r, Nat2Z.id. apply firstn_all.
Qed.

Lemma slice_nil {A} (start stop : Z) : JS.slice (@nil A) start stop = [].
Proof. unfold JS.slice. cbn zeta. by rewrite skipn_nil, firstn_nil. Qed.

(** For a skip and a limit that are natural numbers, [slice] keeps [limit]
    records after dropping [skip]. *)
Lemma slice_take_drop {A} (l : list A) (skip limit : nat) :
  JS.slice l (Z.of_nat skip) (Z.of_nat skip + Z.of_nat limit)
  = take limit (drop skip l).
Proof.
  unfold JS.slice, JS.clamp_index. cbn zeta.
  destruct (Z.ltb_spec (Z.of_nat skip) 0); [lia|].
  destruct (Z.ltb_spec (Z.of_nat skip + Z.of_nat limit) 0); [lia|].
  destruct (decide (skip <= length l)%nat) as [Hle|Hgt].
  - rewrite (Z.min_l (Z.of_nat skip)) by lia. rewrite Nat2Z.id.
    destruct (decide (skip + limit <= length l)%nat).
    + rewrite Z.min_l by lia.
      replace (Z.to_nat (Z.of_nat skip + Z.of_nat limit - Z.of_nat skip))
        with limit by lia.
      done.
    + rewrite Z.min_r by lia.
      replace (Z.to_nat (Z.of_nat (length l) - Z.of_nat skip))
        with (length (drop skip l)) by (rewrite length_drop; lia).
      rewrite firstn_all. symmetry. apply take_ge. rewrite length_drop. lia.
  - rewrite (Z.min_r (Z.of_nat skip)) by lia. rewrite Nat2Z.id.
    rewrite (drop_ge l skip) by lia.
    rewrite skipn_all. by rewrite firstn_nil, take_nil.
Qed.

Lemma sort_nil {A} (cmp : A -> A -> Z) : JS.sort cmp [] = [].
Proof. reflexivity. Qed.

Lemma apply_query_nil query : Shape.apply_query query [] = inr [].
Proof.
  destruct query as [q|]; [|done]. unfold Shape.apply_query.
  replace (Shape.apply_filters (q_filters q) []) with (@nil record)
    by (unfold Shape.apply_filters; by destruct (_ <? _)%nat).
  replace (Shape.apply_sorting (q_sort q) []) with (@nil record)
    by (unfold Shape.apply_sorting; by destruct (q_sort q) as [[|[]]|]).
  unfold Shape.apply_pagination. rewrite slice_nil.
  unfold Shape.apply_projection. by destruct (q_select q).
Qed.

Lemma apply_query_empty records :
  Shape.apply_query (Some empty_query) records = inr records.
Proof.
  unfold Shape.apply_query, empty_query; simpl.
  unfold Shape.apply_pagination; simpl. by rewrite slice_whole.
Qed.

Section ListFacts.
Context (db : string) (parse : string -> option record).

#[local] Abbreviation tablePath := (Yaml.tablePath db).
#[local] Abbreviation readRecord := (Yaml.readRecord db parse).
#[local] Abbreviation find := (Yaml.find db parse).
#[local] Abbreviation load := (Yaml.load db parse).

(** The loop never throws, changes nothing, and every record it collects
    is one that [find] returns. *)
Lemma load_returns table files w :
  exists records,
    load table files w = (inr records, w)
    /\ forall r, r ∈ records ->
         exists id, find table id w = (inr r, w).
Proof.
  induction files as [|file rest (more & IH & Hmore)].
  - exists []. split; [done|]. intros r Hr. by apply elem_of_nil in Hr.
  - simpl. destruct (Yaml.endsWith file ".yaml").
    + destruct (readRecord table (Yaml.drop_last 5 file) w)
        as [[e|r] w1] eqn:E.
      * pose proof (readRecord_pure _ _ _ _ _ _ _ E) as ->.
        exists more. split; [|done].
        rewrite bind_unfold. unfold try_catch at 1.
        rewrite bind_unfold, E. simpl.
        by rewrite bind_unfold, IH.
      * pose proof (readRecord_pure _ _ _ _ _ _ _ E) as ->.
        exists (r :: more). split.
        -- rewrite bind_unfold. unfold try_catch at 1.
           rewrite bind_unfold, E. simpl.
           by rewrite bind_unfold, IH.
        -- intros r' [->|Hr']%elem_of_cons; [|by auto].
           by exists (Yaml.drop_last 5 file).
    + exists more. split; [|done].
      rewrite bind_unfold. simpl. by rewrite bind_unfold, IH.
Qed.

Lemma load_skips table files w :
  (forall file, file ∈ files -> Yaml.endsWith file ".yaml" = false) ->
  load table files w = (inr [], w).
Proof.
  induction files as [|file rest IH]; intros Hno; [done|].
  simpl. rewrite (Hno file) by apply list_elem_of_here.
  rewrite bind_unfold. simpl. rewrite bind_unfold, IH; [done|].
  intros f Hf. apply Hno. by apply list_elem_of_further.
Qed.

Lemma list_unfold table query w :
  Yaml.list db parse table query w =
    let path := tablePath table in
    match disk w !! path with
    | None => (inr [], w)
    | Some (File _) => (inl (IOFailure "ENOTDIR" path), w)
    | Some Dir =>
        match load table (Fs.names path (disk w)) w with
        | (inr records, w') => (Shape.apply_query query records, w')
        | (inl e, w') => (inl e, w')
        end
    end.
Proof.
  unfold Yaml.list. cbn zeta. rewrite bind_unfold, existsSync_unfold.
  destruct (disk w !! tablePath table) as [[content|]|] eqn:E; simpl;
    [| |done].
  - rewrite bind_unfold. unfold Fs.readdirSync. by rewrite E.
  - rewrite bind_unfold. unfold Fs.readdirSync. rewrite E.
    rewrite bind_unfold. by destruct (load _ _ _) as [[?|?] ?].
Qed.

(** C8.  When nothing exists at the table's path, or the table's
    directory holds no entry whose name ends in [.yaml], [list] returns
    the empty sequence, whatever the query, and leaves the world as it
    was. *)
Theorem list_empty_table table query w :
  disk w !! tablePath table = None
  \/ (disk w !! tablePath table = Some Dir
      /\ forall file, file ∈ Fs.names (tablePath table) (disk w) ->
           Yaml.endsWith file ".yaml" = false) ->
  Yaml.list db parse table query w = (inr [], w).
Proof.
  rewrite list_unfold. cbn zeta. intros [->|[-> Hno]]; [done|].
  rewrite load_skips by done. by rewrite apply_query_nil.
Qed.

(** C9.  On every world, [list] with the query [{}] does what [list]
    without a query does: same outcome, same records in the same order,
    same world. *)
Theorem list_empty_query table w :
  Yaml.list db parse table (Some empty_query) w
  = Yaml.list db parse table None w.
Proof.
  rewrite !list_unfold. cbn zeta.
  destruct (disk w !! tablePath table) as [[content|]|]; [done| |done].
  destruct (load _ _ _) as [[e|records] w']; [done|].
  by rewrite apply_query_empty.
Qed.

End ListFacts.

Lemma list_empty_table_witness :
  (disk Demo.drafts !! Yaml.tablePath Demo.db "drafts" = None
   \/ (disk Demo.drafts !! Yaml.tablePath Demo.db "drafts" = Some Dir
       /\ forall file,
            file ∈ Fs.names (Yaml.tablePath Demo.db "drafts")
                     (disk Demo.drafts) ->
            Yaml.endsWith file ".yaml" = false))
  /\ Demo.list "drafts" (Some Demo.two_oldest) Demo.drafts
     = (inr [], Demo.drafts).
Proof.
  assert (disk Demo.drafts !! Yaml.tablePath Demo.db "drafts" = None
          \/ (disk Demo.drafts !! Yaml.tablePath Demo.db "drafts" = Some Dir
              /\ forall file,
                   file ∈ Fs.names (Yaml.tablePath Demo.db "drafts")
                            (disk Demo.drafts) ->
                   Yaml.endsWith file ".yaml" = false)) as Hempty.
  { right. split; [reflexivity|].
    intros file Hfile.
    change (file ∈ ["notes.txt"]) in Hfile.
    apply list_elem_of_singleton in Hfile as ->. reflexivity. }
  exact (conj Hempty
    (list_empty_table Demo.db Flat.parse "drafts" (Some Demo.two_oldest)
       Demo.drafts Hempty)).
Defined.

(** A table that was never created lists as empty too. *)
Example list_missing_table :
  Demo.list "nobody" None Demo.populated = (inr [], Demo.populated).
Proof. reflexivity. Qed.

(** The records come in the order the directory enumerates them. *)
Example list_people :
  Demo.list "people" None Demo.populated
  = (inr [Demo.bob; Demo.cy; Demo.ann], Demo.populated).
Proof. reflexivity. Qed.

(** ** Projection, filters and sorting *)

Lemma sort_insert_elem {A} (cmp : A -> A -> Z) (x y : A) (l : list A) :
  y ∈ JS.sort_insert cmp x l -> y = x \/ y ∈ l.
Proof.
  induction l as [|z l IH]; simpl.
  - intros ?%list_elem_of_singleton. by left.
  - destruct (cmp x z <=? 0).
    + intros [->|?]%elem_of_cons; auto.
    + intros [->|[->|?]%IH]%elem_of_cons; auto.
      * right. apply list_elem_of_here.
      * right. by apply list_elem_of_further.
Qed.

Lemma sort_elem {A} (cmp : A -> A -> Z) (y : A) (l : list A) :
  y ∈ JS.sort cmp l -> y ∈ l.
Proof.
  unfold JS.sort. induction l as [|x l IH]; simpl; [done|].
  intros [->|?]%sort_insert_elem.
  - apply list_elem_of_here.
  - apply list_elem_of_further. auto.
Qed.

Lemma slice_elem {A} (l : list A) (start stop : Z) (y : A) :
  y ∈ JS.slice l start stop -> y ∈ l.
Proof.
  unfold JS.slice. cbn zeta. intros H.
  eapply subseteq_drop, subseteq_take, H.
Qed.


(** The callback of the projection throws for every record and every
    selection. *)
Lemma project_throws (select : list string) (r : record) :
  Shape.project select r = inl TypeError.
Proof. reflexivity. Qed.

(** So the projection returns only when there is nothing to project. *)
Lemma apply_projection_select (keys : list string) (records : list record) :
  Shape.apply_projection (Some keys) records =
    match records with
    | [] => inr []
    | _ :: _ => inl TypeError
    end.
Proof. by destruct records. Qed.

Lemma apply_query_select (q : Query) (keys : list string)
    (records : list record) :
  q_select q = Some keys ->
  Shape.apply_query (Some q) records =
    match Shape.apply_query (Some (without_select q)) records with
    | inr [] => inr []
    | inr (_ :: _) => inl TypeError
    | inl e => inl e
    end.
Proof.
  intros Hsel. unfold Shape.apply_query, without_select. simpl.
  rewrite Hsel. apply apply_projection_select.
Qed.

Section SelectFacts.
Context (db : string) (parse : string -> option record).

(** C5.  With [$select] in the query, [list] returns no projected
    record.  Compared with the same query without its [$select]: when
    that one returns at least one record, [list] with [$select] throws a
    [TypeError], whatever fields are selected, because the callback that
    is to build the record of [id] and the selected fields calls an
    object literal; when that one returns no record, [list] with
    [$select] returns none either; and when that one throws, so does
    [list] with [$select].  The world stays as it was in every case. *)
Theorem select_throws table q keys w :
  q_select q = Some keys ->
  Yaml.list db parse table (Some q) w =
    match Yaml.list db parse table (Some (without_select q)) w with
    | (inr [], w') => (inr [], w')
    | (inr (_ :: _), w') => (inl TypeError, w')
    | (inl e, w') => (inl e, w')
    end.
Proof.
  intros Hsel. rewrite !list_unfold. cbn zeta.
  destruct (disk w !! _) as [[content|]|]; [done| |done].
  destruct (Yaml.load _ _ _ _ _) as [[e|records] w1]; [done|].
  rewrite (apply_query_select q keys records Hsel).
  by destruct (Shape.apply_query _ records) as [e|[|r page]].
Qed.
End SelectFacts.

(** The three people, with [age] selected: [list] throws, where the same
    query without [$select] returns the three records. *)
Lemma select_throws_witness :
  q_select Demo.select_age = Some ["age"]
  /\ Demo.list "people" (Some Demo.select_age) Demo.populated
     = match Demo.list "people" (Some (without_select Demo.select_age))
               Demo.populated with
       | (inr [], w') => (inr [], w')
       | (inr (_ :: _), w') => (inl TypeError, w')
       | (inl e, w') => (inl e, w')
       end.
Proof.
  assert (q_select Demo.select_age = Some ["age"]) as Hselect
    by reflexivity.
  exact (conj Hselect
    (select_throws Demo.db Flat.parse "people" Demo.select_age ["age"]
       Demo.populated Hselect)).
Defined.

Example select_age_throws :
  Demo.list "people" (Some (without_select Demo.select_age)) Demo.populated
  = (inr [Demo.bob; Demo.cy; Demo.ann], Demo.populated)
  /\ Demo.list "people" (Some Demo.select_age) Demo.populated
     = (inl TypeError, Demo.populated)
  /\ Demo.list "people" (Some Demo.select_age_nick) Demo.populated
     = (inl TypeError, Demo.populated)
  /\ Demo.list "drafts" (Some Demo.select_age) Demo.drafts
     = (inr [], Demo.drafts).
Proof. repeat split; reflexivity. Qed.

(** The projection of the specification's example: the record of [id]
    and [age] is never built. *)
Example project_age :
  Shape.project ["age"]
    {[ "id" := VStr "x"; "age" := VNum 5; "name" := VStr "a" ]}
  = inl TypeError.
Proof. reflexivity. Qed.

(** The filter and the sort of the specification's examples. *)
Example list_of_age :
  Demo.list "people" (Some Demo.of_age) Demo.populated
  = (inr [Demo.bob; Demo.cy], Demo.populated).
Proof. reflexivity. Qed.

Example list_two_oldest :
  Demo.list "people" (Some Demo.two_oldest) Demo.populated
  = (inr [Demo.cy; Demo.bob], Demo.populated).
Proof. reflexivity. Qed.

(** ** Array-valued constraints *)

Lemma pretty_N_char_head (x : N) : pretty_N_char x ≠ "$"%char.
Proof. unfold pretty_N_char. by repeat case_match. Qed.

Lemma pretty_N_go_head (x : N) (s : string) :
  (0 < x)%N ->
  exists c t, pretty_N_go x s = String c t /\ c ≠ "$"%char.
Proof.
  revert s. induction (N.lt_wf_0 x) as [x _ IH]; intros s Hx.
  rewrite pretty_N_go_step by done.
  destruct (decide (x `div` 10 = 0)%N) as [->|Hdiv].
  - rewrite pretty_N_go_0. eauto using pretty_N_char_head.
  - apply IH; [apply N.div_lt; lia|by apply N.neq_0_lt_0].
Qed.

(** An array index, written out, starts with a digit. *)
Lemma pretty_nat_head (i : nat) :
  exists c t, pretty i = String c t /\ c ≠ "$"%char.
Proof.
  unfold pretty, pretty_nat, pretty, pretty_N. case_decide.
  - by exists "0"%char, "".
  - apply pretty_N_go_head. lia.
Qed.

(** A key that does not start with a dollar sign falls to the [default]
    branch of the operator switch. *)
Lemma operator_default recordValue c t opValue :
  c ≠ "$"%char -> Shape.operator recordValue (String c t, opValue) = true.
Proof.
  intros Hc%Ascii.eqb_neq. unfold Shape.operator. cbn [String.eqb].
  by rewrite !Hc.
Qed.

Lemma forallb_imap {A B} (f : nat -> A -> B) (p : B -> bool) (l : list A) :
  (forall i x, p (f i x) = true) -> forallb p (imap f l) = true.
Proof.
  revert f. induction l as [|x l IH]; intros f Hf; simpl; [done|].
  rewrite Hf. simpl. apply IH. intros i y. apply Hf.
Qed.

(** A constraint whose value is an array holds of every record, whatever
    its key and whatever the array holds. *)
Lemma array_constraint_holds (r : record) (key : string) (items : list value) :
  Shape.constraint r (key, VArr items) = true.
Proof.
  unfold Shape.constraint. simpl. apply forallb_imap. intros i x.
  destruct (pretty_nat_head i) as (c & t & -> & Hc).
  by apply operator_default.
Qed.

(** C3.  The loop over the filters treats [$or] and [$and] like any key
    whose value is an array: for every record and every array of
    sub-queries the constraint holds.  So [list] with
    [{ $or: [{ age: 99 }] }], and with [{ $and: [{ age: 99 }] }], returns
    all three people, none of whom matches the sub-query. *)
Theorem combinators_ignored :
  (forall (r : record) (subs : list value),
     Shape.matches [("$or", VArr subs)] r = true
     /\ Shape.matches [("$and", VArr subs)] r = true)
  /\ Demo.list "people" (Some Demo.or_nobody) Demo.populated
     = (inr [Demo.bob; Demo.cy; Demo.ann], Demo.populated)
  /\ Demo.list "people" (Some Demo.and_nobody) Demo.populated
     = (inr [Demo.bob; Demo.cy; Demo.ann], Demo.populated)
  /\ existsb (Shape.matches [("age", VNum 99)])
       [Demo.bob; Demo.cy; Demo.ann] = false.
Proof.
  split; [|repeat split; reflexivity].
  intros r subs. unfold Shape.matches. cbn [forallb].
  by rewrite !array_constraint_holds.
Qed.

(** ** Pagination *)

Lemma or_default_skip (skip : nat) :
  Shape.or_default (Some (Z.of_nat skip)) 0 = Z.of_nat skip.
Proof.
  unfold Shape.or_default. destruct (Z.eqb_spec (Z.of_nat skip) 0); lia.
Qed.

(** The steps of the query block run in the order filters, sorting,
    pagination, projection. *)
Lemma apply_query_order (q : Query) (records : list record) :
  Shape.apply_query (Some q) records =
    Shape.apply_projection (q_select q)
      (Shape.apply_pagination q
         (Shape.apply_sorting (q_sort q)
            (Shape.apply_filters (q_filters q) records))).
Proof. reflexivity. Qed.

(** Pagination for a skip and a limit that are natural numbers: a limit
    other than zero keeps that many records after the skipped ones, and an
    absent limit, or the limit zero, keeps all of them. *)
Lemma pagination_take_drop (q : Query) (records : list record) (skip : nat) :
  q_skip q = Some (Z.of_nat skip) \/ (q_skip q = None /\ skip = 0%nat) ->
  Shape.apply_pagination q records =
    match q_limit q with
    | Some (Zpos limit) => take (Pos.to_nat limit) (drop skip records)
    | Some (Zneg limit) =>
        JS.slice records (Z.of_nat skip) (Z.of_nat skip + Zneg limit)
    | Some Z0 | None => drop skip records
    end.
Proof.
  intros Hskip. unfold Shape.apply_pagination. cbn zeta.
  assert (Shape.or_default (q_skip q) 0 = Z.of_nat skip) as ->.
  { destruct Hskip as [->|[-> ->]]; [apply or_default_skip|done]. }
  assert (forall l : list record,
    JS.slice l (Z.of_nat skip) (Z.of_nat skip + Z.of_nat (length l))
    = drop skip l) as Hall.
  { intros l. rewrite slice_take_drop. apply take_ge.
    rewrite length_drop. lia. }
  destruct (q_limit q) as [[|limit|limit]|]; simpl; auto.
  rewrite <- (positive_nat_Z limit). apply slice_take_drop.
Qed.

(** What pagination keeps of the filtered and sorted records, for a skip
    and a limit that are natural numbers. *)
Lemma apply_query_page (q : Query) (records : list record)
    (skip : nat) (limit : option nat) :
  q_skip q = Some (Z.of_nat skip) \/ (q_skip q = None /\ skip = 0%nat) ->
  q_limit q = Z.of_nat <$> limit ->
  Shape.apply_query (Some q) records =
    let sorted :=
      Shape.apply_sorting (q_sort q)
        (Shape.apply_filters (q_filters q) records) in
    Shape.apply_projection (q_select q)
      match limit with
      | Some (S n) => take (S n) (drop skip sorted)
      | Some O | None => drop skip sorted
      end.
Proof.
  intros Hskip Hlimit. rewrite apply_query_order. cbn zeta. f_equal.
  rewrite (pagination_take_drop _ _ skip) by done. rewrite Hlimit.
  destruct limit as [[|n]|]; simpl; [done| |done].
  by rewrite SuccNat2Pos.id_succ.
Qed.

Section PaginationFacts.
Context (db : string) (parse : string -> option record).

(** C4 (amended).  For a query whose [$skip] and [$limit], where present,
    are natural numbers, what [list] returns is what the projection step
    makes of a slice of the filtered and sorted records, and it is that
    slice itself when the query has no [$select]; the records are those
    that [list] returns without a query.  The slice starts after [$skip]
    records (none when [$skip] is absent) and holds at most [$limit]
    records when [$limit] is present and not zero, and all the remaining
    records otherwise.  Skip and limit apply after filtering and
    sorting. *)
Theorem list_paginates table q w (skip : nat) (limit : option nat)
    out w' :
  q_skip q = Some (Z.of_nat skip) \/ (q_skip q = None /\ skip = 0%nat) ->
  q_limit q = Z.of_nat <$> limit ->
  Yaml.list db parse table (Some q) w = (inr out, w') ->
  exists records,
    Yaml.list db parse table None w = (inr records, w')
    /\ let sorted :=
         Shape.apply_sorting (q_sort q)
           (Shape.apply_filters (q_filters q) records) in
       let page :=
         match limit with
         | Some (S n) => take (S n) (drop skip sorted)
         | Some O | None => drop skip sorted
         end in
       Shape.apply_projection (q_select q) page = inr out
       /\ (q_select q = None -> out = page).
Proof.
  intros Hskip Hlimit. rewrite !list_unfold. cbn zeta.
  assert (forall records,
    Shape.apply_query (Some q) records = inr out ->
    let sorted :=
      Shape.apply_sorting (q_sort q)
        (Shape.apply_filters (q_filters q) records) in
    let page :=
      match limit with
      | Some (S n) => take (S n) (drop skip sorted)
      | Some O | None => drop skip sorted
      end in
    Shape.apply_projection (q_select q) page = inr out
    /\ (q_select q = None -> out = page)) as Hshape.
  { intros records Hq sorted page.
    rewrite (apply_query_page q records skip limit Hskip Hlimit) in Hq.
    cbn zeta in Hq. fold sorted page in Hq. split; [done|].
    intros Hnone. rewrite Hnone in Hq. simpl in Hq. congruence. }
  destruct (disk w !! _) as [[content|]|]; [done| |].
  - destruct (Yaml.load _ _ _ _ _) as [[e|records] w1]; [done|].
    intros [= Hq <-]. exists records. split; [done|]. by apply Hshape.
  - intros [= <- <-]. exists []. split; [done|].
    apply Hshape, apply_query_nil.
Qed.
End PaginationFacts.

(** C4, counterexample.  [$limit || records.length] takes the limit zero
    for an absent limit: [list] with [{ $limit: 0 }] returns all three
    people. *)
Lemma limit_zero_keeps_all :
  Demo.list "people" (Some Demo.limit_zero) Demo.populated
  = (inr [Demo.bob; Demo.cy; Demo.ann], Demo.populated).
Proof. reflexivity. Qed.

Lemma list_paginates_witness :
  (q_skip Demo.two_oldest = Some (Z.of_nat 0)
   \/ (q_skip Demo.two_oldest = None /\ 0%nat = 0%nat))
  /\ q_limit Demo.two_oldest = Z.of_nat <$> Some 2%nat
  /\ Demo.list "people" (Some Demo.two_oldest) Demo.populated
     = (inr [Demo.cy; Demo.bob], Demo.populated)
  /\ exists records,
       Demo.list "people" None Demo.populated = (inr records, Demo.populated)
       /\ let sorted :=
            Shape.apply_sorting (q_sort Demo.two_oldest)
              (Shape.apply_filters (q_filters Demo.two_oldest) records) in
          Shape.apply_projection (q_select Demo.two_oldest)
            (take 2 (drop 0 sorted))
          = inr [Demo.cy; Demo.bob]
          /\ (q_select Demo.two_oldest = None ->
              [Demo.cy; Demo.bob] = take 2 (drop 0 sorted)).
Proof.
  assert (q_skip Demo.two_oldest = Some (Z.of_nat 0)
          \/ (q_skip Demo.two_oldest = None /\ 0%nat = 0%nat))
    as Hskip by (right; split; reflexivity).
  assert (q_limit Demo.two_oldest = Z.of_nat <$> Some 2%nat)
    as Hlimit by reflexivity.
  assert (Demo.list "people" (Some Demo.two_oldest) Demo.populated
          = (inr [Demo.cy; Demo.bob], Demo.populated))
    as Hlist by reflexivity.
  exact (conj Hskip (conj Hlimit (conj Hlist
    (list_paginates Demo.db Flat.parse "people" Demo.two_oldest
       Demo.populated 0 (Some 2%nat) [Demo.cy; Demo.bob] Demo.populated
       Hskip Hlimit Hlist)))).
Defined.

(** ** The write gate serialises *)

Module GateFacts.
Import Gate GateInv.
#[local] Open Scope list_scope.
#[local] Open Scope nat_scope.

Section Facts.
Context {V E : Type}.

#[local] Abbreviation outcome := (Gate.outcome V E).
#[local] Abbreviation state := (Gate.state V E).
#[local] Abbreviation label := (Gate.label V E).

Lemma waiting_nil from n : n <= from -> waiting from n = [].
Proof.
  intros H. unfold waiting. by replace (n - from) with 0 by lia.
Qed.

Lemma waiting_cons from n :
  from < n -> waiting from n = queued from ++ waiting (S from) n.
Proof.
  intros H. unfold waiting.
  replace (n - from) with (S (n - S from)) by lia. done.
Qed.

Lemma waiting_snoc from n :
  from <= n -> waiting from (S n) = waiting from n ++ queued n.
Proof.
  intros H. unfold waiting.
  replace (S n - from) with (n - from + 1) by lia.
  rewrite seq_app, flat_map_app. simpl.
  replace (from + (n - from)) with n by lia. done.
Qed.

Lemma elem_of_waiting p rx from n :
  (p, rx) ∈ waiting from n ->
  exists k, from <= k < n
    /\ ((p = prev k /\ rx = Then k (Result k))
        \/ (p = Result k /\ rx = Catch (Tail k))).
Proof.
  unfold waiting. rewrite list_elem_of_In, in_flat_map.
  intros (k & Hk%in_seq & Hin). exists k. split; [lia|].
  destruct Hin as [[= <- <-]|[[= <- <-]|[]]]; auto.
Qed.

(** Picking an element out of a list picks its head or something
    further down. *)
Lemma pick_cons {A} (x y : A) (l before after : list A) :
  x :: l = before ++ y :: after ->
  (before = [] /\ y = x /\ after = l) \/ y ∈ l.
Proof.
  destruct before as [|z before]; simpl; intros [= -> ->]; [by left|].
  right. apply elem_of_app. right. apply list_elem_of_here.
Qed.

(** While the head of the queue has not been released, no reaction of
    the calls behind it can run: they wait on pending promises. *)
Lemma waiting_blocked tr (s : state) outs f p rx :
  inv tr s outs f ->
  (p, rx) ∈ waiting (S (length outs)) (calls s) ->
  cells s p = Pending.
Proof.
  intros I (k & Hk & [[-> _]|[-> _]])%elem_of_waiting.
  - destruct k as [|j]; [lia|]. simpl. apply (inv_later_tail _ _ _ _ I).
    lia.
  - apply (inv_later_result _ _ _ _ I). lia.
Qed.

Lemma elem_of_snoc {A} (l : list A) (x y : A) :
  x ∈ l ++ [y] <-> x ∈ l \/ x = y.
Proof. by rewrite elem_of_app, list_elem_of_singleton. Qed.

Lemma inv_init : inv [] (@init V E) [] Idle.
Proof.
  split; simpl; try done.
  - intros k h. rewrite elem_of_nil. lia.
  - intros k. rewrite elem_of_nil. split; [done|]. intros [?|[_ ?]]; [lia|done].
  - intros k o. rewrite elem_of_nil. split; [done|]. by intros [?|[_ ?]].
Qed.

Lemma inv_call tr (s : state) outs f :
  inv tr s outs f ->
  inv (tr ++ [Call (calls s) (fst (run s))]) (snd (run s)) outs f.
Proof.
  intros I. split; simpl.
  - pose proof (inv_bound _ _ _ _ I). lia.
  - intros Hf. pose proof (inv_front _ _ _ _ I Hf). lia.
  - apply (inv_initial _ _ _ _ I).
  - apply (inv_over _ _ _ _ I).
  - apply (inv_current _ _ _ _ I).
  - apply (inv_later_result _ _ _ _ I).
  - apply (inv_later_tail _ _ _ _ I).
  - rewrite <- app_assoc. simpl.
    rewrite (inv_reactions _ _ _ _ I), (inv_promise _ _ _ _ I).
    fold (queued (calls s)).
    destruct f.
    + rewrite waiting_snoc; [done|apply (inv_bound _ _ _ _ I)].
    + rewrite waiting_snoc; [done|]. by apply (inv_front _ _ _ _ I).
    + rewrite waiting_snoc; [done|]. by apply (inv_front _ _ _ _ I).
  - apply (inv_running _ _ _ _ I).
  - done.
  - intros k h. rewrite elem_of_snoc, (inv_calls _ _ _ _ I). split.
    + intros [[? ->]|[= -> ->]]; split; (lia || done).
    + intros [Hk ->]. destruct (decide (k = calls s)) as [->|]; [by right|].
      left. split; [lia|done].
  - intros k. rewrite elem_of_snoc, (inv_starts _ _ _ _ I).
    split; [intros [?|?]; [done|discriminate]|by left].
  - intros k o. rewrite elem_of_snoc, (inv_finishes _ _ _ _ I).
    split; [intros [?|?]; [done|discriminate]|by left].
Qed.

(** The promise the head of the queue waits on is fulfilled: the gate's
    chain never rejects. *)
Lemma prev_fulfilled tr (s : state) outs f :
  inv tr s outs f ->
  exists v, cells s (prev (length outs)) = Settled (Fulfilled v).
Proof.
  intros I. destruct (length outs) as [|j] eqn:Hlen; simpl.
  - eexists. apply (inv_initial _ _ _ _ I).
  - destruct (lookup_lt_is_Some_2 outs j) as [o Ho]; [lia|].
    eexists. apply (inv_over _ _ _ _ I _ _ Ho).
Qed.

(** The one reaction that can run in a reachable state is at the head
    of the list: the [then] of the next operation when the gate is idle,
    the [catch] of the operation that has just settled otherwise. *)
Lemma react_head tr (s : state) outs f before after p rx o :
  inv tr s outs f ->
  reactions s = before ++ (p, rx) :: after ->
  cells s p = Settled o ->
  let m := length outs in
  before = [] /\
  ((f = Idle /\ m < calls s /\ p = prev m /\ rx = Then m (Result m)
    /\ after = (Result m, Catch (Tail m)) :: waiting (S m) (calls s)
    /\ exists v, o = Fulfilled v)
   \/ (f = Settling o /\ p = Result m /\ rx = Catch (Tail m)
       /\ after = waiting (S m) (calls s))).
Proof.
  intros I Hpick Hp m. rewrite (inv_reactions _ _ _ _ I) in Hpick.
  pose proof (inv_current _ _ _ _ I) as Hcur. fold m in Hpick, Hcur.
  assert (Hlater : (p, rx) ∈ waiting (S m) (calls s) -> False).
  { intros Hin. pose proof (waiting_blocked _ _ _ _ _ _ I Hin).
    congruence. }
  destruct f as [| |o0].
  - destruct (decide (m < calls s)) as [Hlt|Hge].
    + rewrite waiting_cons in Hpick by done. simpl in Hpick.
      apply pick_cons in Hpick as [(-> & [= -> ->] & ->)|Hin].
      * split; [done|]. left.
        destruct (prev_fulfilled _ _ _ _ I) as [v Hv]. fold m in Hv.
        repeat split; try done. exists v. congruence.
      * apply elem_of_cons in Hin as [[= -> ->]|Hin]; [congruence|].
        by destruct Hlater.
    + rewrite waiting_nil in Hpick by lia.
      by destruct before.
  - apply pick_cons in Hpick as [(-> & [= -> ->] & ->)|Hin];
      [congruence|by destruct Hlater].
  - apply pick_cons in Hpick as [(-> & [= -> ->] & ->)|Hin];
      [|by destruct Hlater].
    split; [done|]. right. repeat split. congruence.
Qed.

Lemma inv_then tr (s : state) outs f before after p fn q v :
  inv tr s outs f ->
  reactions s = before ++ (p, Then fn q) :: after ->
  cells s p = Settled (Fulfilled v) ->
  f = Idle /\ fn = length outs
  /\ inv (tr ++ [Start fn])
       (with_running (running s ++ [(fn, q)])
          (with_reactions (before ++ after) s)) outs Busy.
Proof.
  intros I Hpick Hp.
  destruct (react_head _ _ _ _ _ _ _ _ _ I Hpick Hp)
    as (-> & [(-> & Hlt & -> & [= -> ->] & -> & _)|(_ & _ & [=] & _)]).
  split; [done|]. split; [done|]. split; simpl; try done.
  - apply (inv_bound _ _ _ _ I).
  - apply (inv_initial _ _ _ _ I).
  - apply (inv_over _ _ _ _ I).
  - apply (inv_current _ _ _ _ I).
  - apply (inv_later_result _ _ _ _ I).
  - apply (inv_later_tail _ _ _ _ I).
  - by rewrite (inv_running _ _ _ _ I).
  - apply (inv_promise _ _ _ _ I).
  - intros k h. rewrite elem_of_snoc, <- (inv_calls _ _ _ _ I).
    split; [intros [?|?]; [done|discriminate]|by left].
  - intros k. rewrite elem_of_snoc, (inv_starts _ _ _ _ I). split.
    + intros [[?|[_ ?]]|[= ->]]; [by left|done|by right].
    + intros [?|[-> _]]; [by left; left|by right].
  - intros k o. rewrite elem_of_snoc, (inv_finishes _ _ _ _ I). split.
    + intros [[?|[_ ?]]|?]; [by left|done|discriminate].
    + intros [?|[_ ?]]; [by left; left|done].
Qed.

(** A [then] never finds its promise rejected. *)
Lemma inv_then_skip tr (s : state) outs f before after p fn q e :
  inv tr s outs f ->
  reactions s = before ++ (p, Then fn q) :: after ->
  cells s p = Settled (Rejected e) ->
  False.
Proof.
  intros I Hpick Hp.
  by destruct (react_head _ _ _ _ _ _ _ _ _ I Hpick Hp)
    as (_ & [(_ & _ & _ & _ & _ & v & [=])|(_ & _ & [=] & _)]).
Qed.

(** The [catch] of the operation that has settled releases the gate:
    its promise is fulfilled whatever the operation's outcome was. *)
Lemma inv_catch tr (s : state) outs f before after p q o :
  inv tr s outs f ->
  reactions s = before ++ (p, Catch q) :: after ->
  cells s p = Settled o ->
  f = Settling o
  /\ inv (tr ++ [Tick])
       (settle q (Fulfilled (value_of o))
          (with_reactions (before ++ after) s)) (outs ++ [o]) Idle.
Proof.
  intros I Hpick Hp.
  destruct (react_head _ _ _ _ _ _ _ _ _ I Hpick Hp)
    as (-> & [(_ & _ & _ & [=] & _)|(-> & -> & [= ->] & ->)]).
  split; [done|].
  assert (length outs < calls s) as Hlt by by apply (inv_front _ _ _ _ I).
  split; simpl; rewrite ?length_app; simpl.
  - lia.
  - done.
  - rewrite fn_lookup_insert_ne by done. apply (inv_initial _ _ _ _ I).
  - intros k o' Hk. rewrite fn_lookup_insert_ne by done.
    apply lookup_app_Some in Hk as [Hk|[Hge Hk]].
    + pose proof (lookup_lt_Some _ _ _ Hk).
      rewrite fn_lookup_insert_ne by (intros [=]; lia).
      apply (inv_over _ _ _ _ I _ _ Hk).
    + apply list_lookup_singleton_Some in Hk as [Hk ->].
      replace k with (length outs) by lia.
      rewrite fn_lookup_insert. split; [|done].
      apply (inv_current _ _ _ _ I).
  - rewrite fn_lookup_insert_ne by done.
    apply (inv_later_result _ _ _ _ I). lia.
  - intros k Hk. rewrite fn_lookup_insert_ne by done.
    apply (inv_later_result _ _ _ _ I). lia.
  - intros k Hk. rewrite fn_lookup_insert_ne by (intros [=]; lia).
    apply (inv_later_tail _ _ _ _ I). lia.
  - by replace (length outs + 1) with (S (length outs)) by lia.
  - apply (inv_running _ _ _ _ I).
  - apply (inv_promise _ _ _ _ I).
  - intros k h. rewrite elem_of_snoc, <- (inv_calls _ _ _ _ I).
    split; [intros [?|?]; [done|discriminate]|by left].
  - intros k. rewrite elem_of_snoc, (inv_starts _ _ _ _ I). split.
    + intros [[?|[-> _]]|?]; [left; lia|left; lia|discriminate].
    + intros [?|[_ ?]]; [|done]. left.
      destruct (decide (k = length outs)) as [->|]; [by right|left; lia].
  - intros k o'. rewrite elem_of_snoc, (inv_finishes _ _ _ _ I). split.
    + intros [[Hk|[-> [= ->]]]|?]; [| |discriminate]; left.
      * by apply lookup_app_l_Some.
      * rewrite lookup_app_r by lia.
        by replace (length outs - length outs) with 0 by lia.
    + intros [Hk|[_ ?]]; [|done]. left.
      apply lookup_app_Some in Hk as [Hk|[Hge Hk]]; [by left|].
      apply list_lookup_singleton_Some in Hk as [Hk ->].
      right. split; [lia|done].
Qed.

Lemma inv_finish tr (s : state) outs f before after fn q o :
  inv tr s outs f ->
  running s = before ++ (fn, q) :: after ->
  f = Busy /\ fn = length outs /\ q = Result fn
  /\ inv (tr ++ [Finish fn o])
       (settle q o (with_running (before ++ after) s))
       outs (Settling o).
Proof.
  intros I Hpick. rewrite (inv_running _ _ _ _ I) in Hpick.
  destruct f; try by destruct before.
  apply pick_cons in Hpick as [(-> & [= -> ->] & ->)|Hin];
    [|by apply elem_of_nil in Hin].
  do 3 (split; [done|]). split; simpl.
  - apply (inv_bound _ _ _ _ I).
  - intros _. by apply (inv_front _ _ _ _ I).
  - rewrite fn_lookup_insert_ne by done. apply (inv_initial _ _ _ _ I).
  - intros k o' Hk. pose proof (lookup_lt_Some _ _ _ Hk).
    rewrite fn_lookup_insert_ne by (intros [=]; lia).
    rewrite fn_lookup_insert_ne by done.
    apply (inv_over _ _ _ _ I _ _ Hk).
  - apply fn_lookup_insert.
  - intros k Hk. rewrite fn_lookup_insert_ne by (intros [=]; lia).
    by apply (inv_later_result _ _ _ _ I).
  - intros k Hk. rewrite fn_lookup_insert_ne by done.
    by apply (inv_later_tail _ _ _ _ I).
  - apply (inv_reactions _ _ _ _ I).
  - done.
  - apply (inv_promise _ _ _ _ I).
  - intros k h. rewrite elem_of_snoc, <- (inv_calls _ _ _ _ I).
    split; [intros [?|?]; [done|discriminate]|by left].
  - intros k. rewrite elem_of_snoc, (inv_starts _ _ _ _ I). split.
    + intros [[?|[-> _]]|?]; [by left|by right|discriminate].
    + intros [?|[-> _]]; left; [by left|by right].
  - intros k o'. rewrite elem_of_snoc, (inv_finishes _ _ _ _ I). split.
    + intros [[?|[_ ?]]|[= -> ->]]; [by left|done|by right].
    + intros [?|[-> [= ->]]]; [by left; left|by right].
Qed.

(** Every run of the gate ends in a state of the shape [inv]. *)
Lemma exec_inv tr (s : state) :
  exec tr s -> exists outs f, inv tr s outs f.
Proof.
  induction 1 as [|tr s l s' _ (outs & f & I) Hstep].
  - exists [], Idle. apply inv_init.
  - destruct Hstep as [s|s before after p fn q v Hpick Hp
                        |s before after p fn q e Hpick Hp
                        |s before after p q v Hpick Hp
                        |s before after p q e Hpick Hp
                        |s before after fn q o Hpick].
    + exists outs, f. by apply inv_call.
    + exists outs, Busy. by eapply inv_then.
    + by destruct (inv_then_skip _ _ _ _ _ _ _ _ _ _ I Hpick Hp).
    + exists (outs ++ [Fulfilled v]), Idle.
      by apply (inv_catch _ _ _ _ _ _ _ _ _ I Hpick Hp).
    + exists (outs ++ [Rejected e]), Idle.
      by apply (inv_catch _ _ _ _ _ _ _ _ _ I Hpick Hp).
    + exists outs, (Settling o). by eapply inv_finish.
Qed.

(** An idle gate with an operation in line calls it. *)
Lemma idle_starts tr (s : state) outs :
  inv tr s outs Idle ->
  length outs < calls s ->
  exists s', step s (Start (length outs)) s'.
Proof.
  intros I Hlt. destruct (prev_fulfilled _ _ _ _ I) as [v Hv].
  eexists. eapply (step_then s []); [|exact Hv].
  rewrite (inv_reactions _ _ _ _ I), waiting_cons by done. done.
Qed.

(** A settled operation's [catch] runs, whatever the outcome. *)
Lemma settling_releases tr (s : state) outs o :
  inv tr s outs (Settling o) ->
  exists s1, step s Tick s1 /\ inv (tr ++ [Tick]) s1 (outs ++ [o]) Idle.
Proof.
  intros I. pose proof (inv_current _ _ _ _ I) as Hcur.
  pose proof (inv_reactions _ _ _ _ I) as Hrx.
  change (reactions s = [] ++ (Result (length outs),
            Catch (Tail (length outs)))
            :: waiting (S (length outs)) (calls s)) in Hrx.
  destruct (inv_catch _ _ _ _ _ _ _ _ _ I Hrx Hcur) as [_ I'].
  eexists. split; [|exact I'].
  destruct o as [v|e].
  - by apply (step_catch_pass s [] _ (Result (length outs))).
  - by apply (step_catch_swallow s [] _ (Result (length outs)) _ e).
Qed.

(** C6.  In every run of the gate: an operation is called only when
    every operation scheduled before it has settled, fulfilled or
    rejected; at most one operation is in flight; the handle that
    [run] returned for an operation is settled exactly when that
    operation has settled, and with the same outcome, so that a
    rejection reaches the handle of the operation that failed and no
    other; whenever nothing is in flight and a scheduled operation has
    not been called, the next one in line is called after at most one
    other reaction, whatever the outcomes before it; and the promise the
    gate chains on is never rejected. *)
Theorem gate_serialises tr (s : state) :
  exec tr s ->
  (* an operation is called only after every earlier one has settled *)
  (forall k s', step s (Start k) s' ->
     forall j, j < k -> exists o, Finish j o ∈ tr)
  (* at most one operation is in flight *)
  /\ length (running s) <= 1
  (* a handle is settled exactly with its own operation's outcome *)
  /\ (forall k h o, Call k h ∈ tr ->
       (cells s h = Settled o <-> Finish k o ∈ tr))
  (* with nothing in flight, the next operation in line is called
     after at most one other reaction, whatever happened before *)
  /\ (forall k, k < calls s -> (Start k ∉ tr) -> running s = [] ->
       exists k' s', k' <= k /\ (Start k' ∉ tr) /\
         (step s (Start k') s'
          \/ exists s1, step s Tick s1 /\ step s1 (Start k') s'))
  (* the promise the gate chains on is never rejected *)
  /\ (forall e, cells s (promise s) <> Settled (Rejected e)).
Proof.
  intros (outs & f & I)%exec_inv. repeat apply conj.
  - intros k s' Hstep j Hj. inversion Hstep as [|? ? ? ? ? ? ? Hpick Hp| | | |]; subst.
    destruct (inv_then _ _ _ _ _ _ _ _ _ _ I Hpick Hp) as (_ & -> & _).
    destruct (lookup_lt_is_Some_2 outs j Hj) as [o Ho].
    exists o. apply (inv_finishes _ _ _ _ I). by left.
  - rewrite (inv_running _ _ _ _ I). destruct f; simpl; lia.
  - intros k h o [Hk ->]%(inv_calls _ _ _ _ I).
    rewrite (inv_finishes _ _ _ _ I). split.
    + intros Hcell.
      destruct (lt_eq_lt_dec k (length outs)) as [[Hlt| ->]|Hgt].
      * destruct (lookup_lt_is_Some_2 outs k Hlt) as [o' Ho'].
        destruct (inv_over _ _ _ _ I _ _ Ho') as [Hr _].
        left. congruence.
      * right. split; [done|].
        rewrite (inv_current _ _ _ _ I) in Hcell.
        destruct f; congruence.
      * rewrite (inv_later_result _ _ _ _ I) in Hcell by done.
        discriminate.
    + intros [Ho|[-> ->]].
      * apply (inv_over _ _ _ _ I _ _ Ho).
      * apply (inv_current _ _ _ _ I).
  - intros k Hk Hnot Hrun.
    rewrite (inv_starts _ _ _ _ I) in Hnot.
    destruct f as [| |o].
    + assert (length outs <= k) by lia.
      destruct (idle_starts _ _ _ I) as [s' Hs']; [lia|].
      exists (length outs), s'. split; [done|]. split; [|by left].
      rewrite (inv_starts _ _ _ _ I). intros [?|[_ ?]]; [lia|done].
    + rewrite (inv_running _ _ _ _ I) in Hrun. discriminate.
    + assert (length outs < k).
      { destruct (lt_eq_lt_dec k (length outs)) as [[?| ->]|?];
          [| |done]; destruct Hnot; [by left|by right]. }
      destruct (settling_releases _ _ _ _ I) as (s1 & Hs1 & I1).
      destruct (idle_starts _ _ _ I1) as [s' Hs'].
      { rewrite length_app. simpl.
        replace (calls s1) with (calls s); [lia|].
        by inversion Hs1. }
      rewrite length_app in Hs'. simpl in Hs'.
      exists (length outs + 1), s'. split; [lia|]. split; [|eauto].
      rewrite (inv_starts _ _ _ _ I). intros [?|[? _]]; lia.
  - intros e. rewrite (inv_promise _ _ _ _ I).
    pose proof (inv_bound _ _ _ _ I).
    destruct (calls s) as [|j] eqn:Hn; simpl.
    + by rewrite (inv_initial _ _ _ _ I).
    + destruct (decide (j < length outs)) as [Hlt|Hge].
      * destruct (lookup_lt_is_Some_2 outs j Hlt) as [o Ho].
        destruct (inv_over _ _ _ _ I _ _ Ho) as [_ ->]. done.
      * rewrite (inv_later_tail _ _ _ _ I) by lia. done.
Qed.

End Facts.

Lemma demo_exec : exec GateDemo.trace GateDemo.s5.
Proof.
  pose proof (@exec_init unit string) as H0.
  pose proof (exec_step _ _ _ _ H0 (step_call init)) as H1.
  pose proof (exec_step _ _ _ _ H1
    (step_then GateDemo.s1 [] _ Initial 0 (Result 0) None
       eq_refl eq_refl)) as H2.
  pose proof (exec_step _ _ _ _ H2 (step_call GateDemo.s2)) as H3.
  pose proof (exec_step _ _ _ _ H3
    (step_finish GateDemo.s3 [] [] 0 (Result 0) (Rejected "EIO")
       eq_refl)) as H4.
  pose proof (exec_step _ _ _ _ H4
    (step_catch_swallow GateDemo.s4 [] _ (Result 0) (Tail 0) "EIO"
       eq_refl eq_refl)) as H5.
  exact H5.
Qed.

Lemma gate_serialises_witness :
  exec GateDemo.trace GateDemo.s5
  /\ (forall k s', step GateDemo.s5 (Start k) s' ->
        forall j, j < k -> exists o, Finish j o ∈ GateDemo.trace)
  /\ length (running GateDemo.s5) <= 1
  /\ (forall k h o, Call k h ∈ GateDemo.trace ->
        (cells GateDemo.s5 h = Settled o <-> Finish k o ∈ GateDemo.trace))
  /\ (forall k, k < calls GateDemo.s5 -> (Start k ∉ GateDemo.trace) ->
        running GateDemo.s5 = [] ->
        exists k' s', k' <= k /\ (Start k' ∉ GateDemo.trace) /\
          (step GateDemo.s5 (Start k') s'
           \/ exists s1, step GateDemo.s5 Tick s1
                         /\ step s1 (Start k') s'))
  /\ (forall e, cells GateDemo.s5 (promise GateDemo.s5)
                <> Settled (Rejected e)).
Proof.
  exact (conj demo_exec
           (gate_serialises GateDemo.trace GateDemo.s5 demo_exec)).
Defined.

(** In that run the first operation was rejected, and its handle with
    it; the gate's own promise was fulfilled, and the second operation
    is called next. *)
Example demo_outcomes :
  cells GateDemo.s5 (Result 0) = Settled (Rejected "EIO")
  /\ cells GateDemo.s5 (Tail 0) = Settled (Fulfilled None)
  /\ cells GateDemo.s5 (Result 1) = Pending
  /\ running GateDemo.s5 = []
  /\ step GateDemo.s5 (Start 1) GateDemo.s6.
Proof.
  repeat split; try reflexivity.
  exact (step_then GateDemo.s5 [] _ (Tail 0) 1 (Result 1) None
           eq_refl eq_refl).
Qed.

End GateFacts.

(** ** Paths and file names *)

Lemma append_cons (x : ascii) (a b : string) :
  String x a ++ b = String x (a ++ b).
Proof. reflexivity. Qed.

Lemma append_assoc (a b c : string) : (a ++ b) ++ c = a ++ b ++ c.
Proof.
  induction a as [|x a IH]; [done|]. rewrite !append_cons. by f_equal.
Qed.

Lemma length_append (a b : string) :
  String.length (a ++ b) = (String.length a + String.length b)%nat.
Proof.
  induction a as [|x a IH]; [done|]. rewrite append_cons. simpl.
  by f_equal.
Qed.

Lemma substring_whole (s : string) :
  String.substring 0 (String.length s) s = s.
Proof. induction s as [|x s IH]; simpl; [done|by f_equal]. Qed.

Lemma substring_head (a b : string) :
  String.substring 0 (String.length a) (a ++ b) = a.
Proof.
  induction a as [|x a IH]; [by destruct b|]. rewrite append_cons. simpl.
  by f_equal.
Qed.

Lemma substring_tail (a b : string) :
  String.substring (String.length a) (String.length b) (a ++ b) = b.
Proof.
  induction a as [|x a IH]; [apply substring_whole|].
  rewrite append_cons. simpl. done.
Qed.

(** A record's file name ends in [.yaml], and cutting that off gives the
    id back. *)
Lemma endsWith_append (a suffix : string) :
  Yaml.endsWith (a ++ suffix) suffix = true.
Proof.
  unfold Yaml.endsWith. cbn zeta. rewrite length_append.
  replace (String.length a + String.length suffix - String.length suffix)%nat
    with (String.length a) by lia.
  rewrite substring_tail, String.eqb_refl, andb_true_r.
  apply Nat.leb_le. lia.
Qed.

Lemma drop_last_append (a suffix : string) :
  Yaml.drop_last (String.length suffix) (a ++ suffix) = a.
Proof.
  unfold Yaml.drop_last. rewrite length_append.
  replace (String.length a + String.length suffix - String.length suffix)%nat
    with (String.length a) by lia.
  apply substring_head.
Qed.

Lemma strip_prefix_append (pre s : string) :
  Path.strip_prefix pre (pre ++ s) = Some s.
Proof.
  induction pre as [|x pre IH]; [done|]. rewrite append_cons. simpl.
  by rewrite Ascii.eqb_refl.
Qed.

Lemma strip_prefix_Some (pre s rest : string) :
  Path.strip_prefix pre s = Some rest -> s = pre ++ rest.
Proof.
  revert s. induction pre as [|x pre IH]; intros s; simpl.
  - by intros [= ->].
  - destruct s as [|y s]; [done|].
    destruct (Ascii.eqb_spec x y) as [->|]; [|done].
    intros H. rewrite append_cons. by rewrite (IH _ H).
Qed.

Lemma has_slash_append (a b : string) :
  Path.has_slash (a ++ b) = Path.has_slash a || Path.has_slash b.
Proof.
  induction a as [|x a IH]; [done|]. rewrite append_cons. simpl.
  by rewrite IH, orb_assoc.
Qed.

Lemma dirname_no_slash (s : string) :
  Path.has_slash s = false -> Path.dirname s = None.
Proof.
  induction s as [|x s IH]; simpl; [done|].
  intros [Hx Hs]%orb_false_elim. by rewrite IH, Hx.
Qed.

Lemma dirname_child (dir name : string) :
  Path.has_slash name = false ->
  Path.dirname (dir ++ "/" ++ name) = Some dir.
Proof.
  intros Hname. induction dir as [|x dir IH].
  - change ("" ++ "/" ++ name) with (String "/" name). simpl.
    by rewrite dirname_no_slash.
  - rewrite append_cons. simpl. by rewrite IH.
Qed.

Lemma child_name_child (dir name : string) :
  name <> "" -> Path.has_slash name = false ->
  Path.child_name dir (dir ++ "/" ++ name) = Some name.
Proof.
  intros Hne Hslash. unfold Path.child_name.
  rewrite <- append_assoc, strip_prefix_append, Hslash.
  by apply String.eqb_neq in Hne as ->.
Qed.

Lemma child_name_Some (dir p name : string) :
  Path.child_name dir p = Some name -> p = dir ++ "/" ++ name.
Proof.
  unfold Path.child_name.
  destruct (Path.strip_prefix _ _) as [rest|] eqn:E; [|done].
  destruct (_ || _); [done|]. intros [= ->].
  apply strip_prefix_Some in E. by rewrite E, append_assoc.
Qed.

(** The entries of a directory are the names of the paths right under it. *)
Lemma elem_of_names (dir name : string) (d : gmap string node) :
  name ∈ Fs.names dir d <->
  name <> "" /\ Path.has_slash name = false
  /\ is_Some (d !! (dir ++ "/" ++ name)).
Proof.
  unfold Fs.names. rewrite list_elem_of_omap. split.
  - intros ([p n] & Hin%elem_of_map_to_list & Hname). simpl in Hname.
    pose proof (child_name_Some _ _ _ Hname) as ->.
    unfold Path.child_name in Hname.
    rewrite <- append_assoc, strip_prefix_append in Hname.
    destruct (String.eqb_spec name ""); [done|].
    destruct (Path.has_slash name); [done|]. eauto.
  - intros (Hne & Hslash & [n Hn]). exists (dir ++ "/" ++ name, n).
    split; [by apply elem_of_map_to_list|]. by apply child_name_child.
Qed.

(** ** More on [list] *)

Lemma matches_shaped (q : Query) (records : list record) (r : record) :
  r ∈ Shape.apply_pagination q
        (Shape.apply_sorting (q_sort q)
           (Shape.apply_filters (q_filters q) records)) ->
  Shape.matches (q_filters q) r = true.
Proof.
  intros H. apply slice_elem in H.
  assert (r ∈ Shape.apply_filters (q_filters q) records) as Hf.
  { unfold Shape.apply_sorting in H.
    destruct (q_sort q) as [[|[key d] ?]|]; try done.
    by apply sort_elem in H. }
  unfold Shape.apply_filters in Hf.
  destruct (q_filters q) as [|f fs] eqn:E; [done|]. simpl in Hf.
  by apply list_elem_of_In, filter_In in Hf as [_ Hf].
Qed.



Section MoreListFacts.
Context (db : string) (parse : string -> option record).

#[local] Abbreviation tablePath := (Yaml.tablePath db).
#[local] Abbreviation recordPath := (Yaml.recordPath db).
#[local] Abbreviation readRecord := (Yaml.readRecord db parse).
#[local] Abbreviation find := (Yaml.find db parse).
#[local] Abbreviation load := (Yaml.load db parse).



(** One round of the loop: it never throws and changes nothing. *)
Lemma load_head table file w :
  exists found,
    (if Yaml.endsWith file ".yaml"
     then try_catch (r ← readRecord table (Yaml.drop_last 5 file);
                     mret [r])
                    (fun _ => mret [])
     else mret []) w = (inr found, w)
    /\ forall r,
         Yaml.endsWith file ".yaml" = true ->
         readRecord table (Yaml.drop_last 5 file) w = (inr r, w) ->
         found = [r].
Proof.
  destruct (Yaml.endsWith file ".yaml").
  - unfold try_catch. rewrite bind_unfold.
    destruct (readRecord table (Yaml.drop_last 5 file) w)
      as [[e|r] w1] eqn:E;
      pose proof (readRecord_pure _ _ _ _ _ _ _ E) as ->.
    + exists []. split; [done|]. by intros r _ [=].
    + exists [r]. split; [done|]. by intros r' _ [= ->].
  - exists []. split; [done|]. by intros r [=].
Qed.

Lemma load_contains table files w file r :
  file ∈ files ->
  Yaml.endsWith file ".yaml" = true ->
  readRecord table (Yaml.drop_last 5 file) w = (inr r, w) ->
  exists out, load table files w = (inr out, w) /\ r ∈ out.
Proof.
  intros Hin Hends Hread.
  induction files as [|f files IH]; [by apply elem_of_nil in Hin|].
  destruct (load_returns db parse table files w) as (more & Hmore & _).
  destruct (load_head table f w) as (found & Hfound & Hone).
  exists (found ++ more)%list. split.
  - cbn [Yaml.load]. rewrite bind_unfold, Hfound.
    by rewrite bind_unfold, Hmore.
  - apply elem_of_app. apply elem_of_cons in Hin as [<-|Hin].
    + left. rewrite (Hone r Hends Hread). apply list_elem_of_here.
    + right. destruct (IH Hin) as (out & Hout & Hr). congruence.
Qed.

(** A record file of the table's directory is read by the loop. *)
Lemma load_stored table id w content r :
  disk w !! recordPath table id = Some (File content) ->
  parse content = Some r ->
  Path.has_slash id = false ->
  exists out,
    load table (Fs.names (tablePath table) (disk w)) w = (inr out, w)
    /\ r ∈ out.
Proof.
  intros Hfile Hparse Hslash.
  apply (load_contains table _ w (id ++ ".yaml") r).
  - apply elem_of_names. split; [by destruct id|]. split.
    + by rewrite has_slash_append, Hslash.
    + unfold Yaml.recordPath in Hfile. by rewrite Hfile.
  - apply endsWith_append.
  - pose proof (drop_last_append id ".yaml") as Hcut.
    change (String.length ".yaml") with 5%nat in Hcut. rewrite Hcut.
    by eapply readRecord_stored.
Qed.

(** X3.  [list] misses no record: when the table's path is a
    directory and the file of an id without a slash holds text that the
    codec reads as [r], then [list] without a query returns, and [r] is
    among the records it returns. *)
Theorem list_complete table id w content r :
  disk w !! tablePath table = Some Dir ->
  disk w !! recordPath table id = Some (File content) ->
  parse content = Some r ->
  Path.has_slash id = false ->
  exists out,
    Yaml.list db parse table None w = (inr out, w) /\ r ∈ out.
Proof.
  intros Hdir Hfile Hparse Hslash. rewrite list_unfold. cbn zeta.
  rewrite Hdir.
  destruct (load_stored table id w content r Hfile Hparse Hslash)
    as (out & -> & Hin).
  by exists out.
Qed.

(** [list] with a query shapes what [list] returns without one. *)
Lemma list_shapes table q w all :
  Yaml.list db parse table None w = (inr all, w) ->
  Yaml.list db parse table q w = (Shape.apply_query q all, w).
Proof.
  rewrite !list_unfold. cbn zeta.
  destruct (disk w !! _) as [[content|]|]; [done| |].
  - destruct (Yaml.load _ _ _ _ _) as [[e|records] w1]; [done|].
    by intros [= <- <-].
  - intros [= <-]. by rewrite apply_query_nil.
Qed.


End MoreListFacts.


Lemma list_complete_witness :
  disk Demo.populated !! Yaml.tablePath Demo.db "people" = Some Dir
  /\ disk Demo.populated !! Yaml.recordPath Demo.db "people" "id1"
     = Some (File (Flat.stringify Demo.bob))
  /\ Flat.parse (Flat.stringify Demo.bob) = Some Demo.bob
  /\ Path.has_slash "id1" = false
  /\ exists out,
       Demo.list "people" None Demo.populated = (inr out, Demo.populated)
       /\ Demo.bob ∈ out.
Proof.
  assert (disk Demo.populated !! Yaml.tablePath Demo.db "people" = Some Dir)
    as Hdir by reflexivity.
  assert (disk Demo.populated !! Yaml.recordPath Demo.db "people" "id1"
          = Some (File (Flat.stringify Demo.bob))) as Hfile by reflexivity.
  assert (Flat.parse (Flat.stringify Demo.bob) = Some Demo.bob)
    as Hcodec by reflexivity.
  assert (Path.has_slash "id1" = false) as Hid by reflexivity.
  exact (conj Hdir (conj Hfile (conj Hcodec (conj Hid
    (list_complete Demo.db Flat.parse "people" "id1" Demo.populated
       (Flat.stringify Demo.bob) Demo.bob Hdir Hfile Hcodec Hid))))).
Defined.


(** ** More on [create], [update] and [remove] *)

Lemma append_yaml_inj (a b : string) : a ++ ".yaml" = b ++ ".yaml" -> a = b.
Proof.
  revert b. induction a as [|x a IH]; intros [|y b] H.
  - done.
  - apply (f_equal String.length) in H.
    rewrite append_cons in H. simpl in H. rewrite length_append in H.
    simpl in H. lia.
  - apply (f_equal String.length) in H.
    rewrite append_cons in H. simpl in H. rewrite length_append in H.
    simpl in H. lia.
  - rewrite !append_cons in H. injection H as -> H. f_equal. by apply IH.
Qed.

Lemma append_inj_r (a b c : string) : a ++ b = a ++ c -> b = c.
Proof.
  induction a as [|x a IH]; [done|]. rewrite !append_cons.
  intros [= H]. by apply IH.
Qed.

(** Within a table every id has a file of its own. *)
Lemma recordPath_inj db table id1 id2 :
  Yaml.recordPath db table id1 = Yaml.recordPath db table id2 -> id1 = id2.
Proof.
  unfold Yaml.recordPath. intros H%append_inj_r.
  apply (append_inj_r "/") in H. by apply append_yaml_inj.
Qed.

Lemma prefixes_length pre rest p :
  p ∈ Path.prefixes_at_slash pre rest ->
  (String.length p < String.length pre + String.length rest)%nat.
Proof.
  revert pre. induction rest as [|c rest IH]; intros pre; simpl.
  - by intros ?%elem_of_nil.
  - intros [Hin|Hin]%elem_of_app.
    + destruct (_ && _); [|by apply elem_of_nil in Hin].
      apply list_elem_of_singleton in Hin as ->. lia.
    + apply IH in Hin. rewrite length_append in Hin. simpl in Hin. lia.
Qed.

Lemma ancestors_length p q :
  p ∈ Path.ancestors q -> (String.length p <= String.length q)%nat.
Proof.
  unfold Path.ancestors. intros [Hin|Hin]%elem_of_app.
  - apply prefixes_length in Hin. simpl in Hin. lia.
  - by apply list_elem_of_singleton in Hin as ->.
Qed.

Lemma recordPath_longer db table id p :
  p ∈ Path.ancestors (Yaml.tablePath db table) ->
  p <> Yaml.recordPath db table id.
Proof.
  intros Hin%ancestors_length ->. unfold Yaml.recordPath in Hin.
  rewrite !length_append in Hin. simpl in Hin. lia.
Qed.

(** What a run of [mkdir -p] that returns has done: the listed paths are
    directories, everything that was there is still there, and whatever is
    new is one of the listed directories. *)
Lemma mkdir_steps_return (l : list string) (w w' : world) :
  foldr (fun a k => Fs.mkdir_step a ;; k) (mret tt) l w = (inr tt, w') ->
  issued w' = issued w
  /\ (forall p, p ∈ l -> disk w' !! p = Some Dir)
  /\ (forall p n, disk w !! p = Some n -> disk w' !! p = Some n)
  /\ (forall p, disk w !! p = None ->
        disk w' !! p = None \/ (p ∈ l /\ disk w' !! p = Some Dir)).
Proof.
  revert w. induction l as [|a l IH]; intros w; simpl.
  - intros [= <-]. repeat split; auto. by intros p ?%elem_of_nil.
  - rewrite bind_unfold. unfold Fs.mkdir_step at 1.
    destruct (disk w !! a) as [[content|]|] eqn:Ha; [done|..].
    + intros (Hi & Hl & Hkeep & Hnew)%IH. repeat split; [done|..|done|].
      * intros p [->|Hp]%elem_of_cons; [by apply Hkeep|by apply Hl].
      * intros p Hp. destruct (Hnew p Hp) as [?|[? ?]]; [by left|].
        right. split; [by apply list_elem_of_further|done].
    + intros (Hi & Hl & Hkeep & Hnew)%IH. simpl in *.
      repeat split; [done|..].
      * intros p [->|Hp]%elem_of_cons; [|by apply Hl].
        apply Hkeep, lookup_insert_eq.
      * intros p n Hp. apply Hkeep. rewrite lookup_insert_ne; [done|].
        congruence.
      * intros p Hp. destruct (decide (a = p)) as [->|Hne].
        -- right. split; [apply list_elem_of_here|].
           apply Hkeep, lookup_insert_eq.
        -- destruct (Hnew p) as [?|[? ?]]; [by rewrite lookup_insert_ne|by left|].
           right. split; [by apply list_elem_of_further|done].
Qed.

(** [mkdir -p] returns when no path on the way is a file. *)
Lemma mkdir_steps_go (l : list string) (w : world) :
  (forall p content, p ∈ l -> disk w !! p <> Some (File content)) ->
  exists w', foldr (fun a k => Fs.mkdir_step a ;; k) (mret tt) l w
             = (inr tt, w').
Proof.
  revert w. induction l as [|a l IH]; intros w Hok; simpl; [by eexists|].
  rewrite bind_unfold. unfold Fs.mkdir_step at 1.
  destruct (disk w !! a) as [[content|]|] eqn:Ha.
  - by destruct (Hok a content (list_elem_of_here _ _)).
  - apply IH. intros p c Hp. apply Hok. by apply list_elem_of_further.
  - apply IH. intros p c Hp. simpl.
    destruct (decide (a = p)) as [->|Hne].
    + by rewrite lookup_insert_eq.
    + rewrite lookup_insert_ne by done. apply Hok.
      by apply list_elem_of_further.
Qed.

Lemma ret_unfold {A} (x : A) (w : world) : (mret x : M A) w = (inr x, w).
Proof. reflexivity. Qed.

Section MoreAdapterFacts.
Context (db : string) (stringify : record -> string)
        (parse : string -> option record) (ids : nat -> string).

#[local] Abbreviation recordPath := (Yaml.recordPath db).
#[local] Abbreviation tablePath := (Yaml.tablePath db).
#[local] Abbreviation readRecord := (Yaml.readRecord db parse).
#[local] Abbreviation find := (Yaml.find db parse).
#[local] Abbreviation create := (Yaml.create db stringify ids).
#[local] Abbreviation update := (Yaml.update db stringify parse).
#[local] Abbreviation remove := (Yaml.remove db parse).
#[local] Abbreviation list := (Yaml.list db parse).

(** The steps of a [create] that returns. *)
Lemma create_returns table data w R w' :
  create table data w = (inr R, w') ->
  let id := ids (issued w) in
  exists w1,
    R = data ∪ {[ "id" := VStr id ]}
    /\ issued w1 = issued w
    /\ (if bool_decide (is_Some (disk w !! tablePath table)) then w1 = w
        else Fs.mkdirSync (tablePath table) w = (inr tt, w1))
    /\ Fs.writeFile (recordPath table id) (stringify R)
         {| disk := disk w1; issued := S (issued w) |} = (inr tt, w').
Proof.
  intros Hcreate id. unfold Yaml.create in Hcreate. cbn zeta in Hcreate.
  rewrite bind_unfold, existsSync_unfold in Hcreate.
  apply bind_returns in Hcreate as ([] & w1 & Hdir & Hcreate).
  assert (issued w1 = issued w) as Hissued.
  { destruct (bool_decide _); simpl in Hdir.
    - rewrite ret_unfold in Hdir. by injection Hdir as <-.
    - by apply mkdir_steps_return in Hdir as [? _]. }
  rewrite bind_unfold in Hcreate. unfold Yaml.generateId in Hcreate.
  rewrite Hissued in Hcreate. fold id in Hcreate.
  apply bind_returns in Hcreate as ([] & w2 & Hwrite & Hret).
  injection Hret as <- <-. unfold Yaml.fileMutex_run in Hwrite.
  exists w1. repeat split; [done| |done].
  destruct (bool_decide _); simpl in Hdir; [|done].
  rewrite ret_unfold in Hdir. by injection Hdir as <-.
Qed.

(** What a [create] that returns leaves on the disk. *)
Lemma create_steps table data w R w' :
  create table data w = (inr R, w') ->
  let path := recordPath table (ids (issued w)) in
  exists d1,
    w' = {| disk := <[path := File (stringify R)]> d1;
            issued := S (issued w) |}
    /\ (forall p n, disk w !! p = Some n -> d1 !! p = Some n)
    /\ (forall p, disk w !! p = None ->
          d1 !! p = None
          \/ (p ∈ Path.ancestors (tablePath table) /\ d1 !! p = Some Dir))
    /\ ((forall content,
           disk w !! tablePath table <> Some (File content)) ->
        d1 !! tablePath table = Some Dir).
Proof.
  intros Hcreate path.
  destruct (create_returns _ _ _ _ _ Hcreate) as (w1 & _ & Hi & Hdir & Hw).
  apply writeFile_returns in Hw as ->. exists (disk w1).
  split; [done|].
  destruct (bool_decide _) eqn:E.
  - subst w1. repeat split; auto. intros Hnofile.
    apply bool_decide_eq_true in E as [[content|] E]; [|done].
    by destruct (Hnofile content).
  - apply mkdir_steps_return in Hdir as (_ & Hl & Hkeep & Hnew).
    repeat split; auto. intros _. apply Hl.
    unfold Path.ancestors. apply elem_of_app. right.
    by apply list_elem_of_singleton.
Qed.

(** X5.  What a [create] that returns has done to the world, and what
    it has left alone.  One id was drawn; the file named after that id
    holds the serialisation of the returned record; every other path
    that held something holds the same thing afterwards; and a path
    that held nothing still holds nothing, unless it is the table's
    directory or a directory on the way to it, which [mkdirSync] has
    made. *)
Theorem create_frame table data w R w' :
  create table data w = (inr R, w') ->
  let path := recordPath table (ids (issued w)) in
  issued w' = S (issued w)
  /\ disk w' !! path = Some (File (stringify R))
  /\ (forall p n, p <> path ->
        disk w !! p = Some n -> disk w' !! p = Some n)
  /\ (forall p, p <> path -> disk w !! p = None ->
        disk w' !! p = None
        \/ (p ∈ Path.ancestors (tablePath table)
            /\ disk w' !! p = Some Dir)).
Proof.
  intros Hcreate path.
  destruct (create_steps _ _ _ _ _ Hcreate) as (d1 & -> & Hkeep & Hnew & _).
  simpl. fold path. repeat split.
  - apply lookup_insert_eq.
  - intros p n Hp Hn. rewrite lookup_insert_ne by done. by apply Hkeep.
  - intros p Hp Hn. rewrite lookup_insert_ne by done. by apply Hnew.
Qed.

(** X6.  [create] does not disturb the other records of the table: a
    record that [find] returned before, under an id other than the one
    [create] draws, is what [find] returns for that id afterwards. *)
Theorem create_keeps_others table data w R w' id0 r0 :
  create table data w = (inr R, w') ->
  id0 <> ids (issued w) ->
  find table id0 w = (inr r0, w) ->
  find table id0 w' = (inr r0, w').
Proof.
  intros Hcreate Hid Hfind.
  apply create_steps in Hcreate as (d1 & -> & Hkeep & _).
  unfold Yaml.find in *.
  apply readRecord_returns in Hfind as (content & Hd & Hp & _).
  eapply readRecord_stored; [|exact Hp]. simpl.
  rewrite lookup_insert_ne by (by intros Heq%recordPath_inj).
  by apply Hkeep.
Qed.

Lemma record_parent table id :
  Path.has_slash id = false ->
  Path.dirname (recordPath table id) = Some (tablePath table).
Proof.
  intros Hid. unfold Yaml.recordPath. apply dirname_child.
  by rewrite has_slash_append, Hid.
Qed.

Lemma tablePath_nonempty table : tablePath table <> "".
Proof.
  unfold Yaml.tablePath. intros H%(f_equal String.length).
  rewrite length_append in H. simpl in H. lia.
Qed.

(** X7.  When [create] goes through.  If neither the table's path nor
    any directory on the way to it is a regular file, the id that
    [generateId] yields has no slash, and the record's path is not a
    directory, then [create] returns, and it returns the data with the
    generated id as the default for [id]; the table's directory is made
    when it is missing. *)
Theorem create_succeeds table data w :
  let id := ids (issued w) in
  (forall p content, p ∈ Path.ancestors (tablePath table) ->
     disk w !! p <> Some (File content)) ->
  Path.has_slash id = false ->
  disk w !! recordPath table id <> Some Dir ->
  exists w', create table data w = (inr (data ∪ {[ "id" := VStr id ]}), w').
Proof.
  intros id Hok Hid Hnodir.
  assert (exists w1,
    (if negb (bool_decide (is_Some (disk w !! tablePath table)))
     then Fs.mkdirSync (tablePath table) else mret tt) w = (inr tt, w1)
    /\ issued w1 = issued w
    /\ disk w1 !! tablePath table = Some Dir
    /\ disk w1 !! recordPath table id <> Some Dir) as (w1 & Hdir & Hi & Ht & Hr).
  { destruct (bool_decide _) eqn:E; simpl.
    - exists w. repeat split; [|done].
      apply bool_decide_eq_true in E as [[content|] E]; [|done].
      edestruct Hok; [|exact E]. unfold Path.ancestors.
      apply elem_of_app. right. by apply list_elem_of_singleton.
    - destruct (mkdir_steps_go _ _ Hok) as [w1 Hgo]. exists w1.
      split; [done|].
      destruct (mkdir_steps_return _ _ _ Hgo) as (Hi & Hl & Hkeep & Hnew).
      repeat split; [done|..].
      + apply Hl. unfold Path.ancestors. apply elem_of_app. right.
        by apply list_elem_of_singleton.
      + destruct (disk w !! recordPath table id) as [n|] eqn:Er.
        * rewrite (Hkeep _ _ Er). done.
        * destruct (Hnew _ Er) as [->|[Hin _]]; [done|].
          by destruct (recordPath_longer db table id _ Hin). }
  unfold Yaml.create. cbn zeta.
  rewrite bind_unfold, existsSync_unfold.
  rewrite (bind_step _ _ _ _ _ Hdir).
  rewrite bind_unfold. unfold Yaml.generateId. rewrite Hi. fold id.
  unfold Yaml.fileMutex_run. rewrite bind_unfold.
  unfold Fs.writeFile at 1. simpl.
  destruct (disk w1 !! recordPath table id) as [[old|]|] eqn:E;
    [by eexists|done|].
  unfold Fs.parent_ready. rewrite record_parent by done.
  destruct (tablePath table) eqn:Et; [by apply tablePath_nonempty in Et|].
  rewrite Ht. by eexists.
Qed.

(** X8.  A created record is listed: when [create] returns [R], the
    generated id has no slash, the table's path was not a regular file
    and the codec reads [R] back from what it wrote, then [list] of the
    table without a query returns, with [R] among its records. *)
Theorem create_then_list table data w R w' :
  create table data w = (inr R, w') ->
  Path.has_slash (ids (issued w)) = false ->
  (forall content, disk w !! tablePath table <> Some (File content)) ->
  parse (stringify R) = Some R ->
  exists out, list table None w' = (inr out, w') /\ R ∈ out.
Proof.
  intros Hcreate Hid Hnofile Hcodec.
  destruct (create_steps _ _ _ _ _ Hcreate) as (d1 & -> & _ & _ & Hdir).
  set (w' := {| disk := _; issued := _ |}).
  assert (disk w' !! tablePath table = Some Dir) as Htable.
  { simpl. rewrite lookup_insert_ne; [by apply Hdir|].
    intros H%(f_equal String.length). unfold Yaml.recordPath in H.
    rewrite !length_append in H. simpl in H. lia. }
  destruct (load_stored db parse table (ids (issued w)) w'
              (stringify R) R) as (out & Hload & Hin);
    [apply lookup_insert_eq|exact Hcodec|exact Hid|].
  exists out. split; [|done].
  rewrite list_unfold. cbn zeta. by rewrite Htable, Hload.
Qed.

(** X9.  Two updates in a row are one update with the merged data:
    when [update] with [d1] returns a record that the codec reads back,
    [update] with [d2] after it returns the same record and leaves the
    same world as a single [update] with [{ ...d1, ...d2 }] would have. *)
Theorem update_twice table id d1 d2 w R w1 :
  update table id d1 w = (inr R, w1) ->
  parse (stringify R) = Some R ->
  update table id d2 w1 = update table id (d2 ∪ d1) w.
Proof.
  intros Hfirst Hcodec. unfold Yaml.update in *.
  apply bind_returns in Hfirst as (r & w0 & Hread & Hfirst).
  apply readRecord_returns in Hread as (old & Hold & Hparse & ->).
  cbn zeta in Hfirst. unfold Yaml.fileMutex_run in Hfirst.
  rewrite (bind_step _ _ _ _ _ (writeFile_over _ _ _ _ Hold)) in Hfirst.
  injection Hfirst as <- <-.
  rewrite (bind_step _ _ _ _ _
             (readRecord_stored db parse table id _ _ _
                (lookup_insert_eq _ _ _) Hcodec)).
  rewrite (bind_step _ _ _ _ _
             (readRecord_stored db parse table id _ _ _ Hold Hparse)).
  cbn zeta. unfold Yaml.fileMutex_run.
  erewrite !bind_step;
    [| by eapply writeFile_over | eapply writeFile_over, lookup_insert_eq].
  rewrite ret_unfold, ret_unfold. rewrite (assoc_L (∪)). f_equal.
  unfold on_disk. simpl. f_equal. apply insert_insert_eq.
Qed.

(** X10.  [update] and [remove] touch the file of their record and
    nothing else: whether they return or throw, every other path of the
    disk holds afterwards what it held before, and no id is drawn. *)
Theorem writes_stay_local table id data w p :
  p <> recordPath table id ->
  let updated := snd (update table id data w) in
  let removed := snd (remove table id w) in
  disk updated !! p = disk w !! p
  /\ issued updated = issued w
  /\ disk removed !! p = disk w !! p
  /\ issued removed = issued w.
Proof.
  intros Hp. cbn zeta.
  enough ((disk (snd (update table id data w)) !! p = disk w !! p
           /\ issued (snd (update table id data w)) = issued w)
          /\ (disk (snd (remove table id w)) !! p = disk w !! p
              /\ issued (snd (remove table id w)) = issued w))
    as [[? ?] [? ?]] by done.
  split.
  - unfold Yaml.update. rewrite bind_unfold, readRecord_unfold. cbn zeta.
    destruct (disk w !! recordPath table id) as [[content|]|] eqn:E;
      [|done..].
    destruct (parse content); [|done].
    unfold Yaml.fileMutex_run.
    rewrite (bind_step _ _ _ _ _ (writeFile_over _ _ _ _ E)).
    rewrite ret_unfold. simpl. split; [|done].
    by apply lookup_insert_ne.
  - rewrite remove_unfold. cbn zeta.
    destruct (disk w !! recordPath table id) as [[content|]|] eqn:E;
      [|done..].
    destruct (parse content); [|done].
    simpl. split; [|done]. by apply lookup_delete_ne.
Qed.

(** X11.  [remove] undoes [create]: when the table's directory is
    there, nothing is stored at the new record's path, [create] returns
    [R] and the codec reads [R] back, then [remove] with the generated id
    returns [R] and leaves the disk as it was before the [create]. *)
Theorem create_then_remove table data w R w1 :
  create table data w = (inr R, w1) ->
  is_Some (disk w !! tablePath table) ->
  disk w !! recordPath table (ids (issued w)) = None ->
  parse (stringify R) = Some R ->
  exists w2,
    remove table (ids (issued w)) w1 = (inr R, w2)
    /\ disk w2 = disk w.
Proof.
  intros Hcreate Htable Hfresh Hcodec.
  destruct (create_returns _ _ _ _ _ Hcreate) as (w0 & HR & _ & Hdir & Hw).
  rewrite bool_decide_eq_true_2 in Hdir by done. subst w0.
  apply writeFile_returns in Hw as ->.
  eexists. rewrite remove_unfold. cbn zeta. simpl.
  rewrite lookup_insert_eq, Hcodec. split.
  - f_equal. f_equal. apply with_own_id. rewrite HR.
    destruct (data !! "id") as [v|] eqn:E.
    + exists v. by apply lookup_union_Some_l.
    + eexists. rewrite lookup_union_r by done. apply lookup_singleton_eq.
  - simpl. by apply delete_insert_id.
Qed.


End MoreAdapterFacts.

Lemma create_frame_witness :
  Demo.create "people" Demo2.bob_data Demo.with_ann
  = (inr Demo.bob, Demo2.ann_then_bob)
  /\ let path :=
       Yaml.recordPath Demo.db "people" (Flat.ids (issued Demo.with_ann)) in
     issued Demo2.ann_then_bob = S (issued Demo.with_ann)
     /\ disk Demo2.ann_then_bob !! path
        = Some (File (Flat.stringify Demo.bob))
     /\ (forall p n, p <> path ->
           disk Demo.with_ann !! p = Some n ->
           disk Demo2.ann_then_bob !! p = Some n)
     /\ (forall p, p <> path -> disk Demo.with_ann !! p = None ->
           disk Demo2.ann_then_bob !! p = None
           \/ (p ∈ Path.ancestors (Yaml.tablePath Demo.db "people")
               /\ disk Demo2.ann_then_bob !! p = Some Dir)).
Proof.
  assert (Demo.create "people" Demo2.bob_data Demo.with_ann
          = (inr Demo.bob, Demo2.ann_then_bob)) as Hcreate by reflexivity.
  exact (conj Hcreate
    (create_frame Demo.db Flat.stringify Flat.ids "people" Demo2.bob_data
       Demo.with_ann Demo.bob Demo2.ann_then_bob Hcreate)).
Defined.

Lemma create_keeps_others_witness :
  Demo.create "people" Demo2.bob_data Demo.with_ann
  = (inr Demo.bob, Demo2.ann_then_bob)
  /\ "id0" <> Flat.ids (issued Demo.with_ann)
  /\ Demo.find "people" "id0" Demo.with_ann = (inr Demo.ann, Demo.with_ann)
  /\ Demo.find "people" "id0" Demo2.ann_then_bob
     = (inr Demo.ann, Demo2.ann_then_bob).
Proof.
  assert (Demo.create "people" Demo2.bob_data Demo.with_ann
          = (inr Demo.bob, Demo2.ann_then_bob)) as Hcreate by reflexivity.
  assert ("id0" <> Flat.ids (issued Demo.with_ann)) as Hid by discriminate.
  assert (Demo.find "people" "id0" Demo.with_ann
          = (inr Demo.ann, Demo.with_ann)) as Hfind by reflexivity.
  exact (conj Hcreate (conj Hid (conj Hfind
    (create_keeps_others Demo.db Flat.stringify Flat.parse Flat.ids
       "people" Demo2.bob_data Demo.with_ann Demo.bob Demo2.ann_then_bob
       "id0" Demo.ann Hcreate Hid Hfind)))).
Defined.

Lemma create_succeeds_witness :
  (forall p content, p ∈ Path.ancestors (Yaml.tablePath Demo.db "people") ->
     disk Demo.fresh !! p <> Some (File content))
  /\ Path.has_slash (Flat.ids (issued Demo.fresh)) = false
  /\ disk Demo.fresh
       !! Yaml.recordPath Demo.db "people" (Flat.ids (issued Demo.fresh))
     <> Some Dir
  /\ exists w',
       Demo.create "people" Demo.ann_data Demo.fresh
       = (inr (Demo.ann_data
                 ∪ {[ "id" := VStr (Flat.ids (issued Demo.fresh)) ]}), w').
Proof.
  assert (forall p content,
            p ∈ Path.ancestors (Yaml.tablePath Demo.db "people") ->
            disk Demo.fresh !! p <> Some (File content)) as Hway
    by (intros p content _; discriminate).
  assert (Path.has_slash (Flat.ids (issued Demo.fresh)) = false)
    as Hid by reflexivity.
  assert (disk Demo.fresh
            !! Yaml.recordPath Demo.db "people"
                 (Flat.ids (issued Demo.fresh))
          <> Some Dir) as Hfile by discriminate.
  exact (conj Hway (conj Hid (conj Hfile
    (create_succeeds Demo.db Flat.stringify Flat.ids "people"
       Demo.ann_data Demo.fresh Hway Hid Hfile)))).
Defined.

Lemma create_then_list_witness :
  Demo.create "people" Demo.ann_data Demo.fresh
  = (inr Demo.ann, Demo.with_ann)
  /\ Path.has_slash (Flat.ids (issued Demo.fresh)) = false
  /\ (forall content,
        disk Demo.fresh !! Yaml.tablePath Demo.db "people"
        <> Some (File content))
  /\ Flat.parse (Flat.stringify Demo.ann) = Some Demo.ann
  /\ exists out,
       Demo.list "people" None Demo.with_ann = (inr out, Demo.with_ann)
       /\ Demo.ann ∈ out.
Proof.
  assert (Demo.create "people" Demo.ann_data Demo.fresh
          = (inr Demo.ann, Demo.with_ann)) as Hcreate by reflexivity.
  assert (Path.has_slash (Flat.ids (issued Demo.fresh)) = false)
    as Hid by reflexivity.
  assert (forall content,
            disk Demo.fresh !! Yaml.tablePath Demo.db "people"
            <> Some (File content)) as Htable
    by (intros content; discriminate).
  assert (Flat.parse (Flat.stringify Demo.ann) = Some Demo.ann)
    as Hcodec by reflexivity.
  exact (conj Hcreate (conj Hid (conj Htable (conj Hcodec
    (create_then_list Demo.db Flat.stringify Flat.parse Flat.ids "people"
       Demo.ann_data Demo.fresh Demo.ann Demo.with_ann
       Hcreate Hid Htable Hcodec))))).
Defined.

Lemma update_twice_witness :
  Demo.update "people" "id1" Demo.older Demo.populated
  = (inr (Demo.older ∪ Demo.bob), Demo2.bob_older)
  /\ Flat.parse (Flat.stringify (Demo.older ∪ Demo.bob))
     = Some (Demo.older ∪ Demo.bob)
  /\ Demo.update "people" "id1" Demo.renamed Demo2.bob_older
     = Demo.update "people" "id1" (Demo.renamed ∪ Demo.older)
         Demo.populated.
Proof.
  assert (Demo.update "people" "id1" Demo.older Demo.populated
          = (inr (Demo.older ∪ Demo.bob), Demo2.bob_older))
    as Hfirst by reflexivity.
  assert (Flat.parse (Flat.stringify (Demo.older ∪ Demo.bob))
          = Some (Demo.older ∪ Demo.bob)) as Hcodec by reflexivity.
  exact (conj Hfirst (conj Hcodec
    (update_twice Demo.db Flat.stringify Flat.parse "people" "id1"
       Demo.older Demo.renamed Demo.populated (Demo.older ∪ Demo.bob)
       Demo2.bob_older Hfirst Hcodec))).
Defined.

Lemma writes_stay_local_witness :
  "/db/people/id0.yaml" <> Yaml.recordPath Demo.db "people" "id1"
  /\ let updated :=
       snd (Demo.update "people" "id1" Demo.older Demo.populated) in
     let removed := snd (Demo.remove "people" "id1" Demo.populated) in
     disk updated !! "/db/people/id0.yaml"
     = disk Demo.populated !! "/db/people/id0.yaml"
     /\ issued updated = issued Demo.populated
     /\ disk removed !! "/db/people/id0.yaml"
        = disk Demo.populated !! "/db/people/id0.yaml"
     /\ issued removed = issued Demo.populated.
Proof.
  assert ("/db/people/id0.yaml" <> Yaml.recordPath Demo.db "people" "id1")
    as Hother by discriminate.
  exact (conj Hother
    (writes_stay_local Demo.db Flat.stringify Flat.parse "people" "id1"
       Demo.older Demo.populated "/db/people/id0.yaml" Hother)).
Defined.

Lemma create_then_remove_witness :
  Demo.create "people" Demo2.bob_data Demo.with_ann
  = (inr Demo.bob, Demo2.ann_then_bob)
  /\ is_Some (disk Demo.with_ann !! Yaml.tablePath Demo.db "people")
  /\ disk Demo.with_ann
       !! Yaml.recordPath Demo.db "people" (Flat.ids (issued Demo.with_ann))
     = None
  /\ Flat.parse (Flat.stringify Demo.bob) = Some Demo.bob
  /\ exists w2,
       Demo.remove "people" (Flat.ids (issued Demo.with_ann))
         Demo2.ann_then_bob = (inr Demo.bob, w2)
       /\ disk w2 = disk Demo.with_ann.
Proof.
  assert (Demo.create "people" Demo2.bob_data Demo.with_ann
          = (inr Demo.bob, Demo2.ann_then_bob)) as Hcreate by reflexivity.
  assert (is_Some (disk Demo.with_ann !! Yaml.tablePath Demo.db "people"))
    as Htable by (exists Dir; reflexivity).
  assert (disk Demo.with_ann
            !! Yaml.recordPath Demo.db "people"
                 (Flat.ids (issued Demo.with_ann)) = None)
    as Hfresh by reflexivity.
  assert (Flat.parse (Flat.stringify Demo.bob) = Some Demo.bob)
    as Hcodec by reflexivity.
  exact (conj Hcreate (conj Htable (conj Hfresh (conj Hcodec
    (create_then_remove Demo.db Flat.stringify Flat.parse Flat.ids "people"
       Demo2.bob_data Demo.with_ann Demo.bob Demo2.ann_then_bob
       Hcreate Htable Hfresh Hcodec))))).
Defined.

(** ** More on the query block *)

Lemma sort_insert_perm {A} (cmp : A -> A -> Z) (x : A) (l : list A) :
  JS.sort_insert cmp x l ≡ₚ x :: l.
Proof.
  induction l as [|y l IH]; simpl; [done|].
  destruct (cmp x y <=? 0); [done|]. rewrite IH. apply Permutation_swap.
Qed.

Lemma sort_perm {A} (cmp : A -> A -> Z) (l : list A) :
  JS.sort cmp l ≡ₚ l.
Proof.
  unfold JS.sort. induction l as [|x l IH]; simpl; [done|].
  by rewrite sort_insert_perm, IH.
Qed.

Lemma sort_insert_filter {A} (cmp : A -> A -> Z) (P : A -> bool)
    (x : A) (l : list A) :
  (forall y, y ∈ l -> P x = true -> P y = true -> cmp x y <= 0) ->
  List.filter P (JS.sort_insert cmp x l) = List.filter P (x :: l).
Proof.
  induction l as [|y l IH]; intros Hle; [done|]. cbn [JS.sort_insert].
  destruct (Z.leb_spec (cmp x y) 0) as [Hc|Hc]; [done|].
  cbn [List.filter]. rewrite IH.
  - cbn [List.filter]. destruct (P x) eqn:Hx; [|done].
    destruct (P y) eqn:Hy; [|done].
    specialize (Hle y (list_elem_of_here _ _) eq_refl Hy). lia.
  - intros z Hz. apply Hle. by apply list_elem_of_further.
Qed.

Lemma sort_filter {A} (cmp : A -> A -> Z) (P : A -> bool) (l : list A) :
  (forall x y, x ∈ l -> y ∈ l -> P x = true -> P y = true -> cmp x y <= 0) ->
  List.filter P (JS.sort cmp l) = List.filter P l.
Proof.
  unfold JS.sort. induction l as [|x l IH]; intros Hle; [done|].
  cbn [foldr]. rewrite sort_insert_filter.
  - cbn [List.filter]. rewrite IH; [done|].
    intros a b Ha Hb. apply Hle; by apply list_elem_of_further.
  - intros y Hy. apply Hle; [apply list_elem_of_here|].
    apply list_elem_of_further. by apply sort_elem in Hy.
Qed.

Lemma string_ltb_irrefl (s : string) : String.ltb s s = false.
Proof.
  unfold String.ltb.
  assert (String.compare s s = Eq) as ->; [|done].
  induction s as [|c s IH]; [done|]. simpl.
  assert (Ascii.compare c c = Eq) as ->; [|done].
  unfold Ascii.compare. apply N.compare_refl.
Qed.

Lemma lt_irrefl (v : value) : JS.lt v v = false.
Proof.
  unfold JS.lt, JS.compare_with.
  destruct (JS.ToPrimitive v) eqn:E;
    try (destruct (JS.ToNumber _); [apply Z.ltb_irrefl|done]).
  apply string_ltb_irrefl.
Qed.

Lemma sort_insert_sorted {A} (cmp : A -> A -> Z) (R : A -> A -> Prop)
    (x : A) (l : list A) :
  (forall y, y ∈ l -> if cmp x y <=? 0 then R x y else R y x) ->
  (forall y z, y ∈ l -> z ∈ l -> R x y -> R y z -> R x z) ->
  StronglySorted R l -> StronglySorted R (JS.sort_insert cmp x l).
Proof.
  intros Htotal Htrans Hsorted.
  induction Hsorted as [|y l Hl IH Hy]; simpl.
  - repeat constructor.
  - pose proof (Htotal y (list_elem_of_here _ _)) as Hxy.
    destruct (cmp x y <=? 0).
    + constructor; [by constructor|]. constructor; [done|].
      apply List.Forall_forall. intros z Hz.
      pose proof Hz as Hz'%list_elem_of_In.
      apply (Htrans y z); [apply list_elem_of_here| |done|].
      * by apply list_elem_of_further.
      * by eapply List.Forall_forall in Hy.
    + constructor.
      * apply IH.
        -- intros z Hz. apply Htotal. by apply list_elem_of_further.
        -- intros a b Ha Hb. apply Htrans; by apply list_elem_of_further.
      * apply List.Forall_forall. intros z Hz%list_elem_of_In.
        apply sort_insert_elem in Hz as [->|Hz]; [done|].
        eapply List.Forall_forall in Hy; [done|]. by apply list_elem_of_In.
Qed.

Lemma sort_sorted {A} (cmp : A -> A -> Z) (R : A -> A -> Prop)
    (l : list A) :
  (forall x y, x ∈ l -> y ∈ l -> if cmp x y <=? 0 then R x y else R y x) ->
  (forall x y z, x ∈ l -> y ∈ l -> z ∈ l -> R x y -> R y z -> R x z) ->
  StronglySorted R (JS.sort cmp l).
Proof.
  unfold JS.sort. induction l as [|x l IH]; intros Htotal Htrans; simpl.
  - constructor.
  - apply sort_insert_sorted.
    + intros y Hy%sort_elem. apply Htotal; [apply list_elem_of_here|].
      by apply list_elem_of_further.
    + intros y z Hy%sort_elem Hz%sort_elem.
      apply Htrans; [apply list_elem_of_here|by apply list_elem_of_further..].
    + apply IH.
      * intros a b Ha Hb. apply Htotal; by apply list_elem_of_further.
      * intros a b c Ha Hb Hc. apply Htrans; by apply list_elem_of_further.
Qed.

(** A comparison with [undefined] on either side is false. *)
Lemma compare_undefined strs nums (v : value) :
  JS.compare_with strs nums VUndefined v = false
  /\ JS.compare_with strs nums v VUndefined = false.
Proof.
  unfold JS.compare_with. split.
  - by destruct (JS.ToPrimitive v).
  - destruct (JS.ToPrimitive v); simpl; try done;
      by destruct (JS.ToNumber _).
Qed.

Lemma missing_field_rejected (r : record) (key op : string)
    (opValue : value) (props : list (string * value)) :
  get r key = VUndefined ->
  (op, opValue) ∈ props ->
  op ∈ ["$lt"; "$lte"; "$gt"; "$gte"; "$search"] ->
  Shape.constraint r (key, VObj props) = false.
Proof.
  intros Hr Hin Hop. unfold Shape.constraint. rewrite Hr. simpl.
  apply not_true_is_false. intros Hall.
  rewrite forallb_forall in Hall. apply list_elem_of_In, Hall in Hin.
  assert (Shape.operator VUndefined (op, opValue) = false) as Hno;
    [|congruence].
  clear Hin. unfold JS.lt, JS.le, JS.gt, JS.ge in *.
  repeat (apply elem_of_cons in Hop as [->|Hop];
          [simpl; unfold JS.lt, JS.le, JS.gt, JS.ge;
           try apply compare_undefined; done|]).
  by apply elem_of_nil in Hop.
Qed.

Lemma pages_concat {A} (size m : nat) (l : list A) :
  (length l <= m * size)%nat ->
  concat (map (fun k => take size (drop (k * size) l)) (seq 0 m)) = l.
Proof.
  revert l. induction m as [|m IH]; intros l Hlen.
  - destruct l; [done|simpl in Hlen; lia].
  - cbn [seq map concat]. rewrite <- seq_shift, map_map.
    transitivity (take size l ++ drop size l)%list; [|apply take_drop].
    f_equal.
    etransitivity; [|apply (IH (drop size l)); rewrite length_drop; lia].
    f_equal. apply map_ext. intros k. by rewrite drop_drop.
Qed.

Lemma apply_query_sort (sort : list (string * Z)) (records : list record) :
  Shape.apply_query (Some (sort_query sort)) records
  = inr (Shape.apply_sorting (Some sort) records).
Proof.
  unfold Shape.apply_query, sort_query. simpl.
  unfold Shape.apply_pagination. simpl. by rewrite slice_whole.
Qed.

Section ShapedLists.
Context (db : string) (parse : string -> option record).

#[local] Abbreviation list := (Yaml.list db parse).

(** X12.  Sorting by a numeric field.  When every record of the table
    holds a number under the sort key, [list] with a query that only
    sorts returns the records of the unqueried list, each as often as
    there, with these numbers in ascending order when the direction is
    [1] and in descending order for every other direction, [-1] or not;
    and records that hold the same number come in the order they have
    in the unqueried list, for either direction. *)
Theorem list_sort_numbers table w all key d rest :
  list table None w = (inr all, w) ->
  (forall r, r ∈ all -> exists n, get r key = VNum n) ->
  exists out,
    list table (Some (sort_query ((key, d) :: rest))) w = (inr out, w)
    /\ out ≡ₚ all
    /\ StronglySorted
         (fun a b => forall x y,
            get a key = VNum x -> get b key = VNum y ->
            if d =? 1 then x <= y else y <= x)
         out
    /\ forall n,
         List.filter (fun r => JS.strict_eq (get r key) (VNum n)) out
         = List.filter (fun r => JS.strict_eq (get r key) (VNum n)) all.
Proof.
  intros Hall Hnum. rewrite (list_shapes _ _ _ _ _ _ Hall).
  rewrite apply_query_sort. eexists. split; [done|].
  unfold Shape.apply_sorting. split; [apply sort_perm|]. split.
  - apply sort_sorted.
    + intros a b [x Ha]%Hnum [y Hb]%Hnum. unfold Shape.comparator, JS.gt.
      rewrite Ha, Hb. unfold JS.lt, JS.compare_with. simpl.
      destruct (d =? 1); destruct (Z.ltb_spec x y);
        destruct (Z.ltb_spec y x); simpl; intros ? ? [= <-] [= <-]; lia.
    + intros a b c [x Ha]%Hnum [y Hb]%Hnum [z Hc]%Hnum Hab Hbc x' z' Hx Hz.
      specialize (Hab x' y Hx Hb). specialize (Hbc y z' Hb Hz).
      destruct (d =? 1); lia.
  - intros n. apply sort_filter.
    intros a b [x Ha]%Hnum [y Hb]%Hnum. rewrite Ha, Hb. simpl.
    intros ->%Z.eqb_eq ->%Z.eqb_eq. unfold Shape.comparator.
    rewrite Ha, Hb. unfold JS.gt. by rewrite lt_irrefl.
Qed.

(** X13.  A record without the field is never in range.  When a query
    without [$select] constrains a field with [$lt], [$lte], [$gt],
    [$gte] or [$search], whatever the operand and whatever else the
    query holds, no record that [list] returns lacks that field or
    holds [undefined] in it. *)
Theorem list_skips_missing table q w out w' key props op opValue :
  q_select q = None ->
  (key, VObj props) ∈ q_filters q ->
  (op, opValue) ∈ props ->
  op ∈ ["$lt"; "$lte"; "$gt"; "$gte"; "$search"] ->
  list table (Some q) w = (inr out, w') ->
  forall r, r ∈ out -> get r key <> VUndefined.
Proof.
  intros Hsel Hkey Hprop Hop Hlist r Hr Hmissing.
  assert (Shape.matches (q_filters q) r = true) as Hmatch.
  { rewrite list_unfold in Hlist. cbn zeta in Hlist.
    destruct (disk w !! _) as [[content|]|]; [done| |].
    - destruct (Yaml.load _ _ _ _ _) as [[e|records] w1]; [done|].
      unfold Shape.apply_query, Shape.apply_projection in Hlist.
      rewrite Hsel in Hlist. injection Hlist as <- <-.
      by eapply matches_shaped.
    - injection Hlist as <- <-. by apply elem_of_nil in Hr. }
  unfold Shape.matches in Hmatch. rewrite forallb_forall in Hmatch.
  apply list_elem_of_In, Hmatch in Hkey.
  by rewrite (missing_field_rejected r key op opValue props) in Hkey.
Qed.

(** X14.  Paging through a table.  For a page size other than zero,
    the pages [$skip = 0, size, 2 * size, ...] with [$limit = size],
    read from one world and put one after the other, are the unqueried
    list: every record is on exactly one page, in the order of the
    list. *)
Theorem list_pages table w all (size m : nat) :
  list table None w = (inr all, w) ->
  (0 < size)%nat ->
  (length all <= m * size)%nat ->
  exists pages,
    Forall2 (fun k page =>
               list table (Some (page_query size k)) w = (inr page, w))
      (seq 0 m) pages
    /\ concat pages = all.
Proof.
  intros Hall Hsize Hlen.
  exists (map (fun k => take size (drop (k * size) all)) (seq 0 m)).
  split; [|by apply pages_concat].
  apply Forall2_fmap_r, Forall_Forall2_diag, List.Forall_forall.
  intros k _. rewrite (list_shapes _ _ _ _ _ _ Hall). f_equal.
  rewrite (apply_query_page _ _ (k * size) (Some size)); [|by left|done].
  cbn zeta. simpl. destruct size; [lia|done].
Qed.

End ShapedLists.

Lemma list_sort_numbers_witness :
  Demo.list "people" None Demo.populated
  = (inr [Demo.bob; Demo.cy; Demo.ann], Demo.populated)
  /\ (forall r, r ∈ [Demo.bob; Demo.cy; Demo.ann] ->
        exists n, get r "age" = VNum n)
  /\ exists out,
       Demo.list "people" (Some (sort_query [("age", -1)])) Demo.populated
       = (inr out, Demo.populated)
       /\ out ≡ₚ [Demo.bob; Demo.cy; Demo.ann]
       /\ StronglySorted
            (fun a b => forall x y,
               get a "age" = VNum x -> get b "age" = VNum y ->
               if -1 =? 1 then x <= y else y <= x)
            out
       /\ forall n,
            List.filter (fun r => JS.strict_eq (get r "age") (VNum n)) out
            = List.filter (fun r => JS.strict_eq (get r "age") (VNum n))
                [Demo.bob; Demo.cy; Demo.ann].
Proof.
  assert (Demo.list "people" None Demo.populated
          = (inr [Demo.bob; Demo.cy; Demo.ann], Demo.populated))
    as Hall by reflexivity.
  assert (forall r, r ∈ [Demo.bob; Demo.cy; Demo.ann] ->
            exists n, get r "age" = VNum n) as Hnum.
  { intros r Hr.
    apply elem_of_cons in Hr as [->|Hr]; [exists 20; reflexivity|].
    apply elem_of_cons in Hr as [->|Hr]; [exists 30; reflexivity|].
    apply elem_of_cons in Hr as [->|Hr]; [exists 10; reflexivity|].
    destruct (proj1 (elem_of_nil r) Hr). }
  exact (conj Hall (conj Hnum
    (list_sort_numbers Demo.db Flat.parse "people" Demo.populated
       [Demo.bob; Demo.cy; Demo.ann] "age" (-1) [] Hall Hnum))).
Defined.

Lemma list_skips_missing_witness :
  q_select Demo.of_age = None
  /\ ("age", VObj [("$gte", VNum 15)]) ∈ q_filters Demo.of_age
  /\ ("$gte", VNum 15) ∈ [("$gte", VNum 15)]
  /\ "$gte" ∈ ["$lt"; "$lte"; "$gt"; "$gte"; "$search"]
  /\ Demo.list "people" (Some Demo.of_age) Demo.populated
     = (inr [Demo.bob; Demo.cy], Demo.populated)
  /\ forall r, r ∈ [Demo.bob; Demo.cy] -> get r "age" <> VUndefined.
Proof.
  assert (q_select Demo.of_age = None) as Hselect by reflexivity.
  assert (("age", VObj [("$gte", VNum 15)]) ∈ q_filters Demo.of_age)
    as Hkey by apply list_elem_of_here.
  assert (("$gte", VNum 15) ∈ [("$gte", VNum 15)])
    as Hprop by apply list_elem_of_here.
  assert ("$gte" ∈ ["$lt"; "$lte"; "$gt"; "$gte"; "$search"])
    as Hop by (do 3 apply list_elem_of_further; apply list_elem_of_here).
  assert (Demo.list "people" (Some Demo.of_age) Demo.populated
          = (inr [Demo.bob; Demo.cy], Demo.populated))
    as Hlist by reflexivity.
  exact (conj Hselect (conj Hkey (conj Hprop (conj Hop (conj Hlist
    (list_skips_missing Demo.db Flat.parse "people" Demo.of_age
       Demo.populated [Demo.bob; Demo.cy] Demo.populated
       "age" [("$gte", VNum 15)] "$gte" (VNum 15)
       Hselect Hkey Hprop Hop Hlist)))))).
Defined.

Lemma list_pages_witness :
  Demo.list "people" None Demo.populated
  = (inr [Demo.bob; Demo.cy; Demo.ann], Demo.populated)
  /\ (0 < 2)%nat
  /\ (length [Demo.bob; Demo.cy; Demo.ann] <= 2 * 2)%nat
  /\ exists pages,
       Forall2 (fun k page =>
                  Demo.list "people" (Some (page_query 2 k)) Demo.populated
                  = (inr page, Demo.populated))
         (seq 0 2) pages
       /\ concat pages = [Demo.bob; Demo.cy; Demo.ann].
Proof.
  assert (Demo.list "people" None Demo.populated
          = (inr [Demo.bob; Demo.cy; Demo.ann], Demo.populated))
    as Hall by reflexivity.
  assert (0 < 2)%nat as Hsize by lia.
  assert (length [Demo.bob; Demo.cy; Demo.ann] <= 2 * 2)%nat
    as Hlen by (simpl; lia).
  exact (conj Hall (conj Hsize (conj Hlen
    (list_pages Demo.db Flat.parse "people" Demo.populated
       [Demo.bob; Demo.cy; Demo.ann] 2 2 Hall Hsize Hlen)))).
Defined.

(** ** The write gate keeps the order *)

Module GateOrder.
Import Gate GateInv GateTrace.
#[local] Open Scope list_scope.
#[local] Open Scope nat_scope.

Section Order.
Context {V E : Type}.

#[local] Abbreviation state := (Gate.state V E).
#[local] Abbreviation label := (Gate.label V E).

Lemma seq_snoc (n : nat) : seq 0 n ++ [n] = seq 0 (S n).
Proof. by rewrite seq_S. Qed.

Lemma exec_order (tr : list label) (s : state) :
  exec tr s ->
  exists outs f,
    inv tr s outs f
    /\ scheduled tr = seq 0 (calls s)
    /\ started tr
       = seq 0 (length outs + match f with Idle => 0 | _ => 1 end)
    /\ finished tr
       = seq 0 (length outs + match f with Settling _ => 1 | _ => 0 end).
Proof.
  unfold scheduled, started, finished.
  induction 1 as [|tr s l s' _ (outs & f & I & Hc & Hs & Hf) Hstep].
  - exists [], Idle. split; [apply GateFacts.inv_init|done].
  - rewrite !omap_app.
    destruct Hstep as [s|s before after p fn q v Hpick Hp
                        |s before after p fn q e Hpick Hp
                        |s before after p q v Hpick Hp
                        |s before after p q e Hpick Hp
                        |s before after fn q o Hpick]; simpl.
    + exists outs, f. rewrite Hc, Hs, Hf, !app_nil_r.
      split; [by apply GateFacts.inv_call|]. by rewrite seq_snoc.
    + destruct (GateFacts.inv_then _ _ _ _ _ _ _ _ _ _ I Hpick Hp)
        as (-> & -> & I').
      exists outs, Busy. rewrite Hc, Hs, Hf, !app_nil_r.
      split; [done|]. repeat split.
      rewrite Nat.add_0_r, Nat.add_1_r. apply seq_snoc.
    + by destruct (GateFacts.inv_then_skip _ _ _ _ _ _ _ _ _ _ I Hpick Hp).
    + destruct (GateFacts.inv_catch _ _ _ _ _ _ _ _ _ I Hpick Hp)
        as (-> & I').
      exists (outs ++ [Fulfilled v]), Idle.
      rewrite Hc, Hs, Hf, !app_nil_r, length_app. simpl.
      split; [done|]. by rewrite Nat.add_0_r.
    + destruct (GateFacts.inv_catch _ _ _ _ _ _ _ _ _ I Hpick Hp)
        as (-> & I').
      exists (outs ++ [Rejected e]), Idle.
      rewrite Hc, Hs, Hf, !app_nil_r, length_app. simpl.
      split; [done|]. by rewrite Nat.add_0_r.
    + destruct (GateFacts.inv_finish _ _ _ _ _ _ _ _ o I Hpick)
        as (-> & -> & -> & I').
      exists outs, (Settling o). rewrite Hc, Hs, Hf, !app_nil_r.
      split; [done|]. repeat split.
      rewrite Nat.add_0_r, Nat.add_1_r. apply seq_snoc.
Qed.

(** X15.  The gate keeps the order of the calls.  In every run, the
    operations handed to [run] are called in the order they were
    handed over and settle in that order, each of them at most once:
    the operations called so far are the first [n] scheduled ones and
    the operations settled so far the first [m], where [m] is [n] or
    [n - 1], and no operation is called that was not scheduled. *)
Theorem gate_in_order (tr : list label) (s : state) :
  exec tr s ->
  exists n m,
    scheduled tr = seq 0 (calls s)
    /\ started tr = seq 0 n
    /\ finished tr = seq 0 m
    /\ m <= n <= calls s /\ n <= S m.
Proof.
  intros (outs & f & I & Hc & Hs & Hf)%exec_order.
  eexists _, _. split; [done|]. split; [done|]. split; [done|].
  pose proof (inv_bound _ _ _ _ I) as Hbound.
  pose proof (inv_front _ _ _ _ I) as Hfront.
  destruct f; simpl; try lia.
  - assert (length outs < calls s) by (by apply Hfront). lia.
  - assert (length outs < calls s) by (by apply Hfront). lia.
Qed.
End Order.

Lemma gate_in_order_witness :
  exec GateDemo.trace GateDemo.s5
  /\ exists n m,
       scheduled GateDemo.trace = seq 0 (calls GateDemo.s5)
       /\ started GateDemo.trace = seq 0 n
       /\ finished GateDemo.trace = seq 0 m
       /\ m <= n <= calls GateDemo.s5 /\ n <= S m.
Proof.
  exact (conj GateFacts.demo_exec
           (gate_in_order GateDemo.trace GateDemo.s5 GateFacts.demo_exec)).
Defined.
End GateOrder.
